(** * ThreadSafeStack: a shallow embedding of [mt::ThreadSafeStack]

    The C++ class adapts a [std::stack] of [std::shared_ptr<AdaptElem>]
    behind a mutex and a condition variable.  The development has two
    layers:

    - a sequential layer: every member function as a function on a
      [World] made of the pointee store of the shared pointers and the
      live stack objects, with the outcome of the call spelled out
      (normal return, exception, a wait that cannot end, undefined
      behaviour);
    - a small-step layer for [push] against threads that sit in
      [waitAndPop], with the mutex owner and the condition variable's
      wait set explicit.

    The standard library is taken at its contract: the top of the
    [std::stack] is the head of the list; copying a container and
    inserting into it are taken to succeed, and so is the move assignment
    of an element; a moved-from container is empty; a pointee cell keeps
    its address for as long as some handle may refer to it, so addresses
    are never reused here.  Only [std::make_shared] is given the chance to
    throw. *)

From stdpp Require Import gmap list strings.

(** ** Elements and their environment *)

(** [AdaptElem] is a template parameter.  Three things about it are
    visible to the stack: what a move assignment [dst = std::move(src)]
    between two objects leaves behind in [src] (it may depend on the old
    [dst], e.g. when the move assignment is a swap); what a move
    assignment of an object to itself, [x = std::move(x)], leaves in it;
    and whether [std::make_shared<AdaptElem>] throws for a given store
    and element. *)
Class Element (AdaptElem : Type) := {
  moved_from : AdaptElem → AdaptElem → AdaptElem;
  self_moved : AdaptElem → AdaptElem;
  make_shared_throws : list AdaptElem → AdaptElem → bool
}.

(** An argument of type [AdaptElem&]: a variable of the caller's own that
    is no pointee of any handle, given by its value, or the pointee of a
    handle the caller holds, given by its address. *)
Inductive reference (AdaptElem : Type) :=
| Local (v : AdaptElem)
| Pointee (a : nat).
Arguments Local {AdaptElem} v.
Arguments Pointee {AdaptElem} a.

(** A [std::shared_ptr]: empty, or the address of a pointee cell. *)
Abbreviation shared_ptr := (option nat).

(** The exceptions the class lets escape. *)
Inductive exception :=
| bad_alloc
| runtime_error (what : string).

(** What a call does to the world [S] it runs in. *)
Inductive outcome (S A : Type) :=
| Returns (a : A) (σ : S)
| Throws (e : exception) (σ : S)
| Blocks
| Undefined.
Arguments Returns {S A} a σ.
Arguments Throws {S A} e σ.
Arguments Blocks {S A}.
Arguments Undefined {S A}.

Definition outcome_map {S A B} (f : A → B) (o : outcome S A) : outcome S B :=
  match o with
  | Returns a σ => Returns (f a) σ
  | Throws e σ => Throws e σ
  | Blocks => Blocks
  | Undefined => Undefined
  end.

Definition world_after {S A} (o : outcome S A) : option S :=
  match o with
  | Returns _ σ | Throws _ σ => Some σ
  | Blocks | Undefined => None
  end.

(** The world: pointee cells by address, and the [m_stack] member of every
    live [ThreadSafeStack] object by object identity ([this]).  The head
    of the list is the top of the [std::stack]. *)
Record World (AdaptElem : Type) := mkWorld {
  heap : list AdaptElem;
  objects : gmap nat (list shared_ptr)
}.
Arguments mkWorld {AdaptElem} heap objects.
Arguments heap {AdaptElem} w.
Arguments objects {AdaptElem} w.

Definition empty_message : string := "The ThreadSafeStack is empty".

Section Model.
Context {AdaptElem : Type} `{!Element AdaptElem}.

Abbreviation World := (World AdaptElem).

Definition init : World := mkWorld [] ∅.

Definition set_stack (this : nat) (s : list shared_ptr) (σ : World) : World :=
  mkWorld (heap σ) (<[this := s]> (objects σ)).

(** [std::make_shared<AdaptElem>(std::move(elem))]: a fresh cell, or
    nothing when it throws. *)
Definition make_shared (elem : AdaptElem) (h : list AdaptElem)
  : option (shared_ptr * list AdaptElem) :=
  if make_shared_throws h elem then None
  else Some (Some (length h), h ++ [elem]).

(** Reading the pointee of [p]. *)
Definition deref (h : list AdaptElem) (p : shared_ptr) : option AdaptElem :=
  a ← p; h !! a.

(** The object a reference denotes. *)
Definition read (h : list AdaptElem) (elem : reference AdaptElem)
  : option AdaptElem :=
  match elem with
  | Local v => Some v
  | Pointee a => h !! a
  end.

(** Move-assigning the pointee of [p] to the object [elem] denotes: the
    reference after the assignment and the store after it.  When [elem]
    is a variable of the caller's, it takes the value of the pointee and
    the pointee is left moved-from; when [elem] is another cell, that
    cell is written and the pointee is left moved-from; when [elem] is
    the pointee itself, the assignment is a move of the cell to
    itself. *)
Definition move_out (p : shared_ptr) (elem : reference AdaptElem)
    (h : list AdaptElem) : option (reference AdaptElem * list AdaptElem) :=
  t ← p; x ← h !! t;
  match elem with
  | Local v => Some (Local x, <[t := moved_from v x]> h)
  | Pointee a =>
      y ← h !! a;
      if decide (a = t) then Some (Pointee a, <[t := self_moved x]> h)
      else Some (Pointee a, <[a := x]> (<[t := moved_from y x]> h))
  end.

(** *** Special members

    Every member function takes the identity of the object it is called
    on.  A constructor wants storage that holds no object yet; every
    other member wants a live object; anything else is undefined
    behaviour. *)

(** [ThreadSafeStack() = default]. *)
Definition default_ctor (this : nat) (σ : World) : outcome World () :=
  match objects σ !! this with
  | None => Returns () (set_stack this [] σ)
  | Some _ => Undefined
  end.

(** [~ThreadSafeStack() = default]. *)
Definition dtor (this : nat) (σ : World) : outcome World () :=
  match objects σ !! this with
  | Some _ => Returns () (mkWorld (heap σ) (delete this (objects σ)))
  | None => Undefined
  end.

(** [ThreadSafeStack(const ThreadSafeStack& rhs)]: [m_stack = rhs.m_stack]
    copies the handles, not the pointees. *)
Definition copy_ctor (this rhs : nat) (σ : World) : outcome World () :=
  match objects σ !! this, objects σ !! rhs with
  | None, Some r => Returns () (set_stack this r σ)
  | _, _ => Undefined
  end.

(** [ThreadSafeStack(ThreadSafeStack&& rhs)]:
    [m_stack = std::move(rhs.m_stack)]. *)
Definition move_ctor (this rhs : nat) (σ : World) : outcome World () :=
  match objects σ !! this, objects σ !! rhs with
  | None, Some r => Returns () (set_stack this r (set_stack rhs [] σ))
  | _, _ => Undefined
  end.

(** [operator=(const ThreadSafeStack& rhs)], guarded by [this != &rhs]. *)
Definition copy_assign (this rhs : nat) (σ : World) : outcome World () :=
  if decide (this ≠ rhs) then
    match objects σ !! this, objects σ !! rhs with
    | Some _, Some r => Returns () (set_stack this r σ)
    | _, _ => Undefined
    end
  else Returns () σ.

(** [operator=(ThreadSafeStack&& rhs)], guarded by [this != &rhs]. *)
Definition move_assign (this rhs : nat) (σ : World) : outcome World () :=
  if decide (this ≠ rhs) then
    match objects σ !! this, objects σ !! rhs with
    | Some _, Some r => Returns () (set_stack this r (set_stack rhs [] σ))
    | _, _ => Undefined
    end
  else Returns () σ.

(** [void swap(ThreadSafeStack& rhs)], guarded by [this != &rhs]. *)
Definition swap (this rhs : nat) (σ : World) : outcome World () :=
  if decide (this ≠ rhs) then
    match objects σ !! this, objects σ !! rhs with
    | Some l, Some r => Returns () (set_stack this r (set_stack rhs l σ))
    | _, _ => Undefined
    end
  else Returns () σ.

(** The free function [mt::swap(lhs, rhs)]. *)
Definition mt_swap (lhs rhs : nat) (σ : World) : outcome World () :=
  swap lhs rhs σ.

(** *** Insertion *)

(** [void push(AdaptElem elem)]: the handle is made first; only then is
    the stack touched. *)
Definition push (this : nat) (elem : AdaptElem) (σ : World) : outcome World () :=
  match make_shared elem (heap σ) with
  | None => Throws bad_alloc σ
  | Some (data, h) =>
      match objects σ !! this with
      | Some s => Returns () (mkWorld h (<[this := data :: s]> (objects σ)))
      | None => Undefined
      end
  end.

(** *** Removal *)

(** [void waitAndPop(AdaptElem& elem)].  The reference is passed in and
    handed back as it is after the call: a variable of the caller's with
    its new value, a cell by the same address.  Run alone, a wait on an
    empty stack never ends. *)
Definition waitAndPop_ref (this : nat) (elem : reference AdaptElem) (σ : World)
  : outcome World (reference AdaptElem) :=
  match objects σ !! this with
  | None => Undefined
  | Some [] => Blocks
  | Some (top :: rest) =>
      match move_out top elem (heap σ) with
      | Some (x, h) => Returns x (mkWorld h (<[this := rest]> (objects σ)))
      | None => Undefined
      end
  end.

(** [std::shared_ptr<AdaptElem> waitAndPop()]. *)
Definition waitAndPop (this : nat) (σ : World) : outcome World shared_ptr :=
  match objects σ !! this with
  | None => Undefined
  | Some [] => Blocks
  | Some (top :: rest) => Returns top (set_stack this rest σ)
  end.

(** [bool tryPop(AdaptElem& elem)]: the flag, and the reference as it is
    after the call. *)
Definition tryPop_ref (this : nat) (elem : reference AdaptElem) (σ : World)
  : outcome World (bool * reference AdaptElem) :=
  match objects σ !! this with
  | None => Undefined
  | Some [] => Returns (false, elem) σ
  | Some (top :: rest) =>
      match move_out top elem (heap σ) with
      | Some (x, h) =>
          Returns (true, x) (mkWorld h (<[this := rest]> (objects σ)))
      | None => Undefined
      end
  end.

(** [std::shared_ptr<AdaptElem> tryPop()]. *)
Definition tryPop (this : nat) (σ : World) : outcome World shared_ptr :=
  match objects σ !! this with
  | None => Undefined
  | Some [] => Returns None σ
  | Some (top :: rest) => Returns top (set_stack this rest σ)
  end.

(** [std::shared_ptr<AdaptElem> pop()]. *)
Definition pop (this : nat) (σ : World) : outcome World shared_ptr :=
  match objects σ !! this with
  | None => Undefined
  | Some [] => Throws (runtime_error empty_message) σ
  | Some (top :: rest) => Returns top (set_stack this rest σ)
  end.

(** [void pop(AdaptElem& elem)]. *)
Definition pop_ref (this : nat) (elem : reference AdaptElem) (σ : World)
  : outcome World (reference AdaptElem) :=
  match objects σ !! this with
  | None => Undefined
  | Some [] => Throws (runtime_error empty_message) σ
  | Some (top :: rest) =>
      match move_out top elem (heap σ) with
      | Some (x, h) => Returns x (mkWorld h (<[this := rest]> (objects σ)))
      | None => Undefined
      end
  end.

(** *** Observations *)

(** The elements of a sequence of handles, top first. *)
Definition elements (h : list AdaptElem) (s : list shared_ptr)
  : list (option AdaptElem) :=
  deref h <$> s.

Definition size (this : nat) (σ : World) : option nat :=
  length <$> objects σ !! this.

(** *** Calls and reachable worlds *)

Inductive call :=
| Default_ctor (this : nat)
| Dtor (this : nat)
| Copy_ctor (this rhs : nat)
| Move_ctor (this rhs : nat)
| Copy_assign (this rhs : nat)
| Move_assign (this rhs : nat)
| Swap (this rhs : nat)
| Mt_swap (lhs rhs : nat)
| Push (this : nat) (elem : AdaptElem)
| WaitAndPop_ref (this : nat) (elem : reference AdaptElem)
| WaitAndPop (this : nat)
| TryPop_ref (this : nat) (elem : reference AdaptElem)
| TryPop (this : nat)
| Pop (this : nat)
| Pop_ref (this : nat) (elem : reference AdaptElem).

(** The world a call leaves behind, whether it returns or throws. *)
Definition exec (c : call) (σ : World) : option World :=
  match c with
  | Default_ctor this => world_after (default_ctor this σ)
  | Dtor this => world_after (dtor this σ)
  | Copy_ctor this rhs => world_after (copy_ctor this rhs σ)
  | Move_ctor this rhs => world_after (move_ctor this rhs σ)
  | Copy_assign this rhs => world_after (copy_assign this rhs σ)
  | Move_assign this rhs => world_after (move_assign this rhs σ)
  | Swap this rhs => world_after (swap this rhs σ)
  | Mt_swap lhs rhs => world_after (mt_swap lhs rhs σ)
  | Push this elem => world_after (push this elem σ)
  | WaitAndPop_ref this elem => world_after (waitAndPop_ref this elem σ)
  | WaitAndPop this => world_after (waitAndPop this σ)
  | TryPop_ref this elem => world_after (tryPop_ref this elem σ)
  | TryPop this => world_after (tryPop this σ)
  | Pop this => world_after (pop this σ)
  | Pop_ref this elem => world_after (pop_ref this elem σ)
  end.

Fixpoint exec_all (cs : list call) (σ : World) : option World :=
  match cs with
  | [] => Some σ
  | c :: cs => σ' ← exec c σ; exec_all cs σ'
  end.

Inductive reachable : World → Prop :=
| reachable_init : reachable init
| reachable_exec c σ σ' : reachable σ → exec c σ = Some σ' → reachable σ'.

(** *** Invariants *)

(** A property of the pointee store and one sequence of handles, asked
    of every live stack. *)
Definition stack_invariant (P : list AdaptElem → list shared_ptr → Prop)
    (σ : World) : Prop :=
  ∀ this s, objects σ !! this = Some s → P (heap σ) s.

(** No stored handle is empty. *)
Definition non_null : World → Prop :=
  stack_invariant (λ _ s, Forall is_Some s).

(** A handle is valid when it owns a cell. *)
Definition valid (h : list AdaptElem) (p : shared_ptr) : Prop :=
  is_Some (deref h p).

(** Within one stack the handles are valid and pairwise distinct. *)
Definition wf : World → Prop :=
  stack_invariant (λ h s, NoDup s ∧ Forall (valid h) s).

(** A reference is live when it denotes an object. *)
Definition live (h : list AdaptElem) (elem : reference AdaptElem) : Prop :=
  is_Some (read h elem).

(** A reference aliases a sequence of handles when it denotes the pointee
    of one of them. *)
Definition aliases (elem : reference AdaptElem) (s : list shared_ptr) : Prop :=
  match elem with
  | Local _ => False
  | Pointee a => Some a ∈ s
  end.

(** *** Pushing and draining in sequence *)


(** The six ways to take an element off by handle or into a variable of
    the caller's own: the forms that write through a reference carry the
    value of that variable, which is no pointee of any handle. *)
Inductive removal :=
| By_waitAndPop_ref (elem : AdaptElem)
| By_waitAndPop
| By_tryPop_ref (elem : AdaptElem)
| By_tryPop
| By_pop
| By_pop_ref (elem : AdaptElem).

(** The element a removal delivers (through the reference, or as the
    pointee of the returned handle) and the world after it; nothing
    when the call delivers no element. *)
Definition removed (r : removal) (this : nat) (σ : World)
  : option (AdaptElem * World) :=
  match r with
  | By_waitAndPop_ref elem =>
      match waitAndPop_ref this (Local elem) σ with
      | Returns (Local x) σ' => Some (x, σ')
      | _ => None
      end
  | By_waitAndPop =>
      match waitAndPop this σ with
      | Returns p σ' => x ← deref (heap σ') p; Some (x, σ')
      | _ => None
      end
  | By_tryPop_ref elem =>
      match tryPop_ref this (Local elem) σ with
      | Returns (true, Local x) σ' => Some (x, σ')
      | _ => None
      end
  | By_tryPop =>
      match tryPop this σ with
      | Returns p σ' => x ← deref (heap σ') p; Some (x, σ')
      | _ => None
      end
  | By_pop =>
      match pop this σ with
      | Returns p σ' => x ← deref (heap σ') p; Some (x, σ')
      | _ => None
      end
  | By_pop_ref elem =>
      match pop_ref this (Local elem) σ with
      | Returns (Local x) σ' => Some (x, σ')
      | _ => None
      end
  end.

Fixpoint remove_all (rs : list removal) (this : nat) (σ : World)
  : option (list AdaptElem * World) :=
  match rs with
  | [] => Some ([], σ)
  | r :: rs =>
      '(x, σ') ← removed r this σ;
      '(xs, σ'') ← remove_all rs this σ';
      Some (x :: xs, σ'')
  end.

(** The six ways to take an element off, the output argument of the forms
    that have one being any reference: a variable of the caller's or the
    pointee of a handle, of this stack or of another. *)
Inductive extraction :=
| Ex_waitAndPop_ref (elem : reference AdaptElem)
| Ex_waitAndPop
| Ex_tryPop_ref (elem : reference AdaptElem)
| Ex_tryPop
| Ex_pop
| Ex_pop_ref (elem : reference AdaptElem).

(** The output argument of an extraction, when it has one. *)
Definition output (e : extraction) : option (reference AdaptElem) :=
  match e with
  | Ex_waitAndPop_ref elem | Ex_tryPop_ref elem | Ex_pop_ref elem => Some elem
  | Ex_waitAndPop | Ex_tryPop | Ex_pop => None
  end.

(** The element the caller holds right after the call (what the output
    argument then denotes, or the pointee of the returned handle) and the
    world after it; nothing when the call delivers no element. *)
Definition extracted (e : extraction) (this : nat) (σ : World)
  : option (AdaptElem * World) :=
  match e with
  | Ex_waitAndPop_ref elem =>
      match waitAndPop_ref this elem σ with
      | Returns elem' σ' => x ← read (heap σ') elem'; Some (x, σ')
      | _ => None
      end
  | Ex_waitAndPop =>
      match waitAndPop this σ with
      | Returns p σ' => x ← deref (heap σ') p; Some (x, σ')
      | _ => None
      end
  | Ex_tryPop_ref elem =>
      match tryPop_ref this elem σ with
      | Returns (true, elem') σ' => x ← read (heap σ') elem'; Some (x, σ')
      | _ => None
      end
  | Ex_tryPop =>
      match tryPop this σ with
      | Returns p σ' => x ← deref (heap σ') p; Some (x, σ')
      | _ => None
      end
  | Ex_pop =>
      match pop this σ with
      | Returns p σ' => x ← deref (heap σ') p; Some (x, σ')
      | _ => None
      end
  | Ex_pop_ref elem =>
      match pop_ref this elem σ with
      | Returns elem' σ' => x ← read (heap σ') elem'; Some (x, σ')
      | _ => None
      end
  end.

Fixpoint extract_all (es : list extraction) (this : nat) (σ : World)
  : option (list AdaptElem * World) :=
  match es with
  | [] => Some ([], σ)
  | e :: es =>
      '(x, σ') ← extracted e this σ;
      '(xs, σ'') ← extract_all es this σ';
      Some (x :: xs, σ'')
  end.

(** The output argument of an extraction denotes an object that is no
    element of the sequence [s]. *)
Definition apart (h : list AdaptElem) (s : list shared_ptr) (e : extraction)
  : Prop :=
  ∀ elem, output e = Some elem → live h elem ∧ ¬ aliases elem s.
End Model.

Arguments call : clear implicits.
Arguments removal : clear implicits.
Arguments extraction : clear implicits.

(** ** Threads: one [push] against threads inside [waitAndPop]

    The mutex and the condition variable enter here.  Each thread is at a
    program point of the member function it runs, a step runs one
    statement of one thread, and the interleaving is the list of steps
    taken.  [std::mutex] lets a thread lock only when nobody holds it;
    [condition_variable::wait(lock, pred)] is the loop that tests [pred]
    under the lock and, when it is false, releases the lock and sleeps
    until a notification or a spurious wake-up, then locks again;
    [notify_one] wakes one sleeping thread when there is one. *)

Section Threads.
Context {AdaptElem : Type} `{!Element AdaptElem}.

Abbreviation World := (World AdaptElem).

Inductive owner :=
| Pusher
| Waiter (i : nat).

(** Program points of [push]: before each of its statements, and its two
    ways out. *)
Inductive push_pc :=
| P_make_shared (elem : AdaptElem)
| P_lock (data : shared_ptr)
| P_push (data : shared_ptr)
| P_unlock
| P_notify_one
| P_returned
| P_threw (e : exception).

(** What a waiter hands to its caller: the new value of the variable
    passed by reference, or the returned handle. *)
Inductive delivery :=
| Into (elem : AdaptElem)
| Handle (p : shared_ptr).

(** Program points of [waitAndPop]: locking (at entry and when a wait
    ends), testing the predicate, sleeping in the wait, the removal, the
    unlock at scope exit, and the return. *)
Inductive wait_pc :=
| W_lock
| W_pred
| W_wait
| W_take
| W_unlock (r : delivery)
| W_returned (r : delivery).

(** A waiter runs [waitAndPop(elem)] with a variable of its own when it
    carries the value of that variable, and [waitAndPop()] when it
    carries none. *)
Abbreviation waiter := (option AdaptElem * wait_pc)%type.

Record Config := mkConfig {
  world : World;
  mutex : option owner;
  pusher : push_pc;
  waiters : list waiter
}.

Definition waiting (w : waiter) : bool :=
  match w.2 with W_wait => true | _ => false end.

(** Waiter [i] leaves the wait. *)
Definition wake_up (i : nat) (ws : list waiter) : option (list waiter) :=
  match ws !! i with
  | Some (f, W_wait) => Some (<[i := (f, W_lock)]> ws)
  | _ => None
  end.

(** [m_condVar.notify_one()]: the sleeper [wake] leaves the wait; with
    no sleeper at all nothing happens. *)
Definition notify_one (wake : nat) (ws : list waiter) : option (list waiter) :=
  match wake_up wake ws with
  | Some ws' => Some ws'
  | None => if existsb waiting ws then None else Some ws
  end.

(** One statement of [push]: [std::make_shared]; the constructor of the
    [lock_guard]; [m_stack.push(std::move(data))]; the end of the guarded
    block; [m_condVar.notify_one()], where [wake] is the sleeper that the
    condition variable picks. *)
Definition step_pusher (this wake : nat) (c : Config) : option Config :=
  match pusher c with
  | P_make_shared elem =>
      match make_shared elem (heap (world c)) with
      | Some (data, h) =>
          Some (mkConfig (mkWorld h (objects (world c))) (mutex c)
                  (P_lock data) (waiters c))
      | None =>
          Some (mkConfig (world c) (mutex c) (P_threw bad_alloc) (waiters c))
      end
  | P_lock data =>
      match mutex c with
      | None => Some (mkConfig (world c) (Some Pusher) (P_push data) (waiters c))
      | Some _ => None
      end
  | P_push data =>
      s ← objects (world c) !! this;
      Some (mkConfig (set_stack this (data :: s) (world c)) (mutex c)
              P_unlock (waiters c))
  | P_unlock => Some (mkConfig (world c) None P_notify_one (waiters c))
  | P_notify_one =>
      ws ← notify_one wake (waiters c);
      Some (mkConfig (world c) (mutex c) P_returned ws)
  | P_returned | P_threw _ => None
  end.

(** One statement of [waitAndPop] run by waiter [i]: locking the mutex
    (by the [unique_lock], or when a wait ends); the predicate
    [!m_stack.empty()], after which the waiter goes on or, in one step,
    releases the mutex and sleeps; the removal ([top], then [pop]) under
    the lock; the unlock at scope exit. *)
Definition step_waiter (this i : nat) (c : Config) : option Config :=
  '(f, pc) ← waiters c !! i;
  match pc with
  | W_lock =>
      match mutex c with
      | None =>
          Some (mkConfig (world c) (Some (Waiter i)) (pusher c)
                  (<[i := (f, W_pred)]> (waiters c)))
      | Some _ => None
      end
  | W_pred =>
      s ← objects (world c) !! this;
      match s with
      | [] =>
          Some (mkConfig (world c) None (pusher c)
                  (<[i := (f, W_wait)]> (waiters c)))
      | _ :: _ =>
          Some (mkConfig (world c) (mutex c) (pusher c)
                  (<[i := (f, W_take)]> (waiters c)))
      end
  | W_take =>
      s ← objects (world c) !! this;
      match s, f with
      | top :: rest, Some elem =>
          match move_out top (Local elem) (heap (world c)) with
          | Some (Local x, h) =>
              Some (mkConfig (mkWorld h (<[this := rest]> (objects (world c))))
                      (mutex c) (pusher c)
                      (<[i := (f, W_unlock (Into x))]> (waiters c)))
          | _ => None
          end
      | top :: rest, None =>
          Some (mkConfig (set_stack this rest (world c)) (mutex c) (pusher c)
                  (<[i := (f, W_unlock (Handle top))]> (waiters c)))
      | [], _ => None
      end
  | W_unlock r =>
      Some (mkConfig (world c) None (pusher c)
              (<[i := (f, W_returned r)]> (waiters c)))
  | W_wait | W_returned _ => None
  end.

Inductive action :=
| Run_pusher (wake : nat)
| Run_waiter (i : nat)
| Spurious_wakeup (i : nat).

Definition step (this : nat) (a : action) (c : Config) : option Config :=
  match a with
  | Run_pusher wake => step_pusher this wake c
  | Run_waiter i => step_waiter this i c
  | Spurious_wakeup i =>
      ws ← wake_up i (waiters c);
      Some (mkConfig (world c) (mutex c) (pusher c) ws)
  end.

Fixpoint run (this : nat) (tr : list action) (c : Config) : option Config :=
  match tr with
  | [] => Some c
  | a :: tr => c' ← step this a c; run this tr c'
  end.

(** The starting configuration: every waiter asleep in its wait, the
    mutex free, and one thread about to run [push(elem)]. *)
Definition push_against_waiters (σ : World) (elem : AdaptElem)
    (fs : list (option AdaptElem)) : Config :=
  mkConfig σ None (P_make_shared elem) ((λ f, (f, W_wait)) <$> fs).

(** *** Counting waiters by program point *)

Definition tally (f : wait_pc → nat) (ws : list waiter) : nat :=
  sum_list_with (λ w, f w.2) ws.

Definition asleep (pc : wait_pc) : nat :=
  match pc with W_wait => 1 | _ => 0 end.

Definition returned (pc : wait_pc) : nat :=
  match pc with W_returned _ => 1 | _ => 0 end.

Definition took (pc : wait_pc) : nat :=
  match pc with W_unlock _ | W_returned _ => 1 | _ => 0 end.

Definition awake (pc : wait_pc) : nat :=
  match pc with W_lock | W_pred | W_take => 1 | _ => 0 end.

Definition taking (pc : wait_pc) : nat :=
  match pc with W_take => 1 | _ => 0 end.

Definition holding (pc : wait_pc) : nat :=
  match pc with W_pred | W_take | W_unlock _ => 1 | _ => 0 end.

(** Statements a waiter still has to run before it sleeps or returns,
    and statements the pusher still has to run, with room for the waiter
    it wakes. *)
Definition wait_rank (pc : wait_pc) : nat :=
  match pc with
  | W_lock => 4
  | W_pred => 3
  | W_take => 2
  | W_unlock _ => 1
  | W_wait | W_returned _ => 0
  end.

Definition push_rank (pc : push_pc) : nat :=
  match pc with
  | P_make_shared _ => 9
  | P_lock _ => 8
  | P_push _ => 7
  | P_unlock => 6
  | P_notify_one => 5
  | P_returned | P_threw _ => 0
  end.

Definition rank (c : Config) : nat :=
  push_rank (pusher c) + tally wait_rank (waiters c).

(** [push] has returned and every waiter is asleep or has returned. *)
Definition quiescent (c : Config) : Prop :=
  pusher c = P_returned ∧ Forall (λ w : waiter, wait_rank w.2 = 0) (waiters c).

(** The delivery carries [elem]: in the variable, or as the pointee of
    the handle. *)
Definition delivers (h : list AdaptElem) (r : delivery) (elem : AdaptElem) : Prop :=
  match r with
  | Into x => x = elem
  | Handle p => deref h p = Some elem
  end.

Definition delivered (h : list AdaptElem) (elem : AdaptElem) (w : waiter) : Prop :=
  match w.2 with
  | W_unlock r | W_returned r => delivers h r elem
  | _ => True
  end.

(** *** A scheduler

    The thread that runs next when the holder of the mutex goes first,
    then the pusher, then a waiter that wants the mutex; [settle] follows
    this scheduler for a number of steps. *)

Definition first_where (P : waiter → bool) (ws : list waiter) : option nat :=
  fst <$> list_find (λ w, P w = true) ws.

Definition wants_lock (w : waiter) : bool :=
  match w.2 with W_lock => true | _ => false end.

Definition schedule (c : Config) : option action :=
  match mutex c with
  | Some Pusher => Some (Run_pusher 0)
  | Some (Waiter i) => Some (Run_waiter i)
  | None =>
      match pusher c with
      | P_returned | P_threw _ => Run_waiter <$> first_where wants_lock (waiters c)
      | _ => Some (Run_pusher (default 0 (first_where waiting (waiters c))))
      end
  end.

Fixpoint settle (this : nat) (fuel : nat) (c : Config) : list action * Config :=
  match fuel with
  | 0 => ([], c)
  | S fuel =>
      match schedule c with
      | Some a =>
          match step this a c with
          | Some c' => let '(tr, c'') := settle this fuel c' in (a :: tr, c'')
          | None => ([], c)
          end
      | None => ([], c)
      end
  end.

(** *** The invariant of the runs from [push_against_waiters σ elem fs] *)

Definition push_holding (pc : push_pc) : nat :=
  match pc with P_push _ | P_unlock => 1 | _ => 0 end.

(** The mutex is held by exactly the thread that is between its lock and
    its unlock. *)
Definition mutex_ok (c : Config) : Prop :=
  match mutex c with
  | None =>
      push_holding (pusher c) = 0 ∧ tally holding (waiters c) = 0
  | Some Pusher =>
      push_holding (pusher c) = 1 ∧ tally holding (waiters c) = 0
  | Some (Waiter i) =>
      push_holding (pusher c) = 0 ∧ tally holding (waiters c) = 1
      ∧ ∃ w, waiters c !! i = Some w ∧ holding w.2 = 1
  end.

(** Where the pushed element is, by the program point of [push]: not yet
    on the stack, on the stack with nobody having taken anything, or
    taken by exactly one waiter. *)
Definition phase_ok (this : nat) (σ : World) (elem : AdaptElem) (c : Config) : Prop :=
  let n0 := length (heap σ) in
  let ws := waiters c in
  let h := heap (world c) in
  let stack_is s := objects (world c) = <[this := s]> (objects σ) in
  let on_stack := h = heap σ ++ [elem] ∧ stack_is [Some n0] ∧ tally took ws = 0 in
  let taken :=
    stack_is [] ∧ tally took ws = 1 ∧ tally taking ws = 0
    ∧ Forall (delivered h elem) ws in
  match pusher c with
  | P_make_shared x =>
      x = elem ∧ h = heap σ ∧ stack_is []
      ∧ tally took ws = 0 ∧ tally taking ws = 0
  | P_lock d | P_push d =>
      d = Some n0 ∧ h = heap σ ++ [elem] ∧ stack_is []
      ∧ tally took ws = 0 ∧ tally taking ws = 0
  | P_unlock => on_stack
  | P_notify_one => on_stack ∨ taken
  | P_returned => (on_stack ∧ 1 ≤ tally awake ws) ∨ taken
  | P_threw _ => False
  end.

Definition invariant (this : nat) (σ : World) (elem : AdaptElem)
    (fs : list (option AdaptElem)) (c : Config) : Prop :=
  mutex_ok c ∧ phase_ok this σ elem c ∧ (waiters c).*1 = fs.

(** *** Configurations with no push under way *)

(** The pusher is out of the way: it has returned, or ([failing]) it
    stands before a [make_shared] that throws or has thrown
    [bad_alloc]. *)
Definition pusher_out (failing : bool) (σ : World) (pc : push_pc) : Prop :=
  match pc with
  | P_returned => failing = false
  | P_make_shared elem =>
      failing = true ∧ make_shared_throws (heap σ) elem = true
  | P_threw e => failing = true ∧ e = bad_alloc
  | _ => False
  end.

(** The world is [σ], the pusher is out of the way, and no waiter is at
    the removal or past it. *)
Definition no_push (failing : bool) (σ : World) (c : Config) : Prop :=
  world c = σ
  ∧ tally took (waiters c) = 0 ∧ tally taking (waiters c) = 0
  ∧ pusher_out failing σ (pusher c).
End Threads.

Arguments push_pc : clear implicits.
Arguments wait_pc : clear implicits.
Arguments delivery : clear implicits.
Arguments Config : clear implicits.

(** ** A concrete element type

    Strings whose move assignment leaves the source empty, also when the
    source is the destination, in a store that holds at most four
    cells. *)
Definition string_element : Element string :=
  {| moved_from := λ _ _, EmptyString;
     self_moved := λ _, EmptyString;
     make_shared_throws := λ h _, bool_decide (4 ≤ length h) |}.

(** Two stacks: object [0] holds "b" over "a", object [1] is empty. *)
Definition example_calls : list (call string) :=
  [Default_ctor 0; Push 0 "a"; Push 0 "b"; Default_ctor 1].

Definition example_world : World string :=
  mkWorld ["a"; "b"] {[ 0 := [Some 1; Some 0]; 1 := [] ]}.

(** Two stacks: object [0] holds "b" over "a", object [1] holds "c". *)
Definition spare_calls : list (call string) :=
  [Default_ctor 0; Push 0 "a"; Push 0 "b"; Default_ctor 1; Push 1 "c"].

Definition spare_world : World string :=
  mkWorld ["a"; "b"; "c"] {[ 0 := [Some 1; Some 0]; 1 := [Some 2] ]}.

(** An empty stack [0] beside a stack [1] that holds "a"; three waiters
    on stack [0], one by reference and two by handle; and an interleaving
    with a spurious wake-up in which the waiter by reference wins. *)
Definition waiting_world : World string :=
  mkWorld ["a"] {[ 0 := []; 1 := [Some 0] ]}.

Definition waiting_forms : list (option string) := [Some "u"; None; None].

Definition example_trace : list action :=
  [Run_pusher 0; Run_pusher 0; Run_pusher 0; Run_pusher 0;
   Spurious_wakeup 0; Run_waiter 0; Run_waiter 0; Run_waiter 0; Run_waiter 0;
   Run_pusher 2; Run_waiter 2; Run_waiter 2].

Definition example_settled : Config string :=
  mkConfig (mkWorld ["a"; EmptyString] {[ 0 := []; 1 := [Some 0] ]}) None
    P_returned
    [(Some "u", W_returned (Into "e")); (None, W_wait); (None, W_wait)].

(** A stack [0] that is empty, [push] returned, one waiter asleep and one
    about to lock; and an interleaving with a spurious wake-up. *)
Definition idle_config : Config string :=
  mkConfig waiting_world None P_returned [(Some "u", W_wait); (None, W_lock)].

Definition idle_trace : list action :=
  [Spurious_wakeup 0; Run_waiter 1; Run_waiter 1; Run_waiter 0; Run_waiter 0].

Definition idle_settled : Config string :=
  mkConfig waiting_world None P_returned [(Some "u", W_wait); (None, W_wait)].

(** An empty stack over a store that has no room left. *)
Definition full_empty_world : World string :=
  mkWorld ["a"; "b"; "c"; "d"] {[ 0 := [] ]}.

Definition failed_trace : list action :=
  [Spurious_wakeup 0; Run_pusher 0; Run_waiter 0; Run_waiter 0].

Definition failed_settled : Config string :=
  mkConfig full_empty_world None (P_threw bad_alloc)
    [(Some "u", W_wait); (None, W_wait); (None, W_wait)].

(** One stack over a store that has no room left. *)
Definition full_world : World string :=
  mkWorld ["a"; "b"; "c"; "d"] {[ 0 := [Some 3; Some 2; Some 1; Some 0] ]}.

(** * Properties of the sequential layer *)

Section Properties.
Context {AdaptElem : Type} `{!Element AdaptElem}.
Implicit Types (σ : World AdaptElem) (this rhs : nat) (elem : AdaptElem).
Implicit Types (s rest : list shared_ptr) (top p : shared_ptr).
Implicit Types (h : list AdaptElem) (r : removal AdaptElem).

(** ** Basic facts about the world *)

Lemma set_stack_lookup this s σ :
  objects (set_stack this s σ) !! this = Some s.
Proof. unfold set_stack; simpl. apply lookup_insert_eq. Qed.

Lemma set_stack_lookup_ne this o s σ :
  this ≠ o → objects (set_stack this s σ) !! o = objects σ !! o.
Proof. intros Hne. unfold set_stack; simpl. by apply lookup_insert_ne. Qed.

(** ** Empty stacks *)

(** C2: on an empty stack both forms of [pop] throw the
    [std::runtime_error] that plays the role of EmptyContainer; no value
    is produced and the world, hence the stack, is exactly as before. *)
Theorem pop_empty_throws this (elem : reference AdaptElem) σ :
  objects σ !! this = Some [] →
  pop this σ = Throws (runtime_error empty_message) σ
  ∧ pop_ref this elem σ = Throws (runtime_error empty_message) σ
  ∧ (∀ σ', world_after (pop this σ) = Some σ' → objects σ' !! this = Some [])
  ∧ (∀ σ', world_after (pop_ref this elem σ) = Some σ' →
       objects σ' !! this = Some []).
Proof.
  intros Hs. unfold pop, pop_ref. rewrite Hs. simpl.
  repeat split; intros σ' [= <-]; done.
Qed.

(** C3: on an empty stack [tryPop(elem)] returns [false] with [elem] and
    the world untouched, [tryPop()] returns the empty handle with the
    world untouched, and neither throws. *)
Theorem tryPop_empty_no_element this (elem : reference AdaptElem) σ :
  objects σ !! this = Some [] →
  tryPop_ref this elem σ = Returns (false, elem) σ
  ∧ tryPop this σ = Returns None σ
  ∧ (∀ e σ', tryPop_ref this elem σ ≠ Throws e σ')
  ∧ (∀ e σ', tryPop this σ ≠ Throws e σ').
Proof.
  intros Hs. unfold tryPop, tryPop_ref. rewrite Hs. by repeat split.
Qed.

(** ** Failure of [push] *)

(** C4: when wrapping the element throws, [push] throws [bad_alloc] and
    the world it leaves is the world it found; in particular the
    sequence of every stack is what it was. *)
Theorem push_failure_atomic this elem σ :
  make_shared_throws (heap σ) elem = true →
  push this elem σ = Throws bad_alloc σ
  ∧ (∀ σ', world_after (push this elem σ) = Some σ' →
       objects σ' !! this = objects σ !! this
       ∧ heap σ' = heap σ).
Proof.
  intros Hthrow.
  assert (push this elem σ = Throws bad_alloc σ) as Heq.
  { unfold push, make_shared. by rewrite Hthrow. }
  split; [done|]. rewrite Heq. by intros σ' [= <-].
Qed.

(** ** Operations of a stack on itself *)

(** C5: copy assignment, move assignment, the member [swap] and the
    free [swap], each applied to one and the same object, return with
    the world unchanged. *)
Theorem self_operations_noop this σ :
  copy_assign this this σ = Returns () σ
  ∧ move_assign this this σ = Returns () σ
  ∧ swap this this σ = Returns () σ
  ∧ mt_swap this this σ = Returns () σ.
Proof.
  unfold mt_swap, copy_assign, move_assign, swap.
  destruct (decide (this ≠ this)) as [Hne|_]; [by destruct Hne|].
  by repeat split.
Qed.

(** ** Copies *)

(** C7: copy construction from a live [rhs] into fresh storage gives a
    stack with the handles, hence the elements, of [rhs], and leaves
    [rhs] and the pointee store as they were; copy assignment between
    two distinct live stacks replaces whatever the destination held by
    the sequence of the source. *)
Theorem copy_duplicates rhs s σ :
  objects σ !! rhs = Some s →
  (∀ this, objects σ !! this = None →
     ∃ σ', copy_ctor this rhs σ = Returns () σ'
           ∧ objects σ' !! this = Some s
           ∧ objects σ' !! rhs = Some s
           ∧ heap σ' = heap σ
           ∧ elements (heap σ') s = elements (heap σ) s)
  ∧ (∀ this d, this ≠ rhs → objects σ !! this = Some d →
     ∃ σ', copy_assign this rhs σ = Returns () σ'
           ∧ objects σ' !! this = Some s
           ∧ objects σ' !! rhs = Some s
           ∧ heap σ' = heap σ
           ∧ elements (heap σ') s = elements (heap σ) s).
Proof.
  intros Hrhs. split.
  - intros this Hthis. exists (set_stack this s σ).
    unfold copy_ctor. rewrite Hthis, Hrhs.
    split_and!; [done|apply set_stack_lookup| |done|done].
    rewrite set_stack_lookup_ne; [done|]. intros ->. congruence.
  - intros this d Hne Hthis. exists (set_stack this s σ).
    unfold copy_assign. rewrite decide_True by done. rewrite Hthis, Hrhs.
    split_and!; [done|apply set_stack_lookup| |done|done].
    by rewrite set_stack_lookup_ne.
Qed.

(** ** Handles and the pointee store *)

Lemma valid_lt h p : valid h p ↔ ∃ a, p = Some a ∧ a < length h.
Proof.
  unfold valid, deref. split.
  - intros [x Hx]. destruct p as [a|]; [|done]. simpl in Hx.
    exists a. split; [done|]. by eapply lookup_lt_Some.
  - intros (a & -> & Hlt). simpl. by apply lookup_lt_is_Some.
Qed.

(** What [move_out] does, by the kind of reference it is given. *)
Lemma move_out_spec top (elem elem' : reference AdaptElem) h h' :
  move_out top elem h = Some (elem', h') →
  ∃ t x, top = Some t ∧ h !! t = Some x
    ∧ match elem with
      | Local v => elem' = Local x ∧ h' = <[t := moved_from v x]> h
      | Pointee a =>
          elem' = Pointee a
          ∧ ∃ y, h !! a = Some y
              ∧ ((a = t ∧ h' = <[t := self_moved x]> h)
                 ∨ (a ≠ t ∧ h' = <[a := x]> (<[t := moved_from y x]> h)))
      end.
Proof.
  destruct top as [t|]; [|done]. simpl.
  destruct (h !! t) as [x|] eqn:Hx; [|done]. simpl.
  destruct elem as [v|a].
  - intros [= <- <-]. by exists t, x.
  - destruct (h !! a) as [y|] eqn:Hy; [|done]. simpl.
    destruct (decide (a = t)) as [->|Hne]; intros [= <- <-]; exists t, x.
    + split_and!; try done. exists y. split; [done|]. by left.
    + split_and!; try done. exists y. split; [done|]. by right.
Qed.

Lemma move_out_local top v h x :
  deref h top = Some x →
  ∃ t, top = Some t
       ∧ move_out top (Local v) h = Some (Local x, <[t := moved_from v x]> h).
Proof.
  destruct top as [t|]; [|done]. simpl. intros Hx.
  exists t. split; [done|]. by rewrite Hx.
Qed.

(** A valid handle can be moved out into any live reference. *)
Lemma move_out_is_Some top (elem : reference AdaptElem) h :
  valid h top → live h elem → is_Some (move_out top elem h).
Proof.
  intros [x Hx] [y Hy]. destruct top as [t|]; [|done]. simpl in *.
  rewrite Hx. simpl. destruct elem as [v|a]; simpl in *; [by eexists|].
  rewrite Hy. simpl. destruct (decide (a = t)); by eexists.
Qed.

Lemma deref_insert_ne h a y p :
  p ≠ Some a → deref (<[a := y]> h) p = deref h p.
Proof.
  destruct p as [b|]; [|done]. simpl. intros Hne.
  apply list_lookup_insert_ne. congruence.
Qed.

(** [move_out] keeps the size of the store and writes at most the
    pointee and the object the reference denotes. *)
Lemma move_out_frame top (elem elem' : reference AdaptElem) h h' :
  move_out top elem h = Some (elem', h') →
  length h' = length h
  ∧ ∀ p, p ≠ top → ¬ aliases elem [p] → deref h' p = deref h p.
Proof.
  intros (t & x & -> & Hx & Hcase)%move_out_spec.
  destruct elem as [v|a].
  - destruct Hcase as [_ ->]. split; [apply length_insert|].
    intros p Hp _. by apply deref_insert_ne.
  - destruct Hcase as (_ & y & Hy & [[-> ->]|[Hne ->]]).
    + split; [apply length_insert|]. intros p Hp _. by apply deref_insert_ne.
    + split; [by rewrite !length_insert|]. intros p Hp Hal.
      rewrite !deref_insert_ne; [done|done|].
      intros ->. apply Hal. simpl. by apply list_elem_of_singleton.
Qed.

(** Moved out into a reference that is not the pointee itself, the
    reference then denotes the value the pointee had. *)
Lemma move_out_reads top (elem elem' : reference AdaptElem) h h' x :
  move_out top elem h = Some (elem', h') →
  deref h top = Some x → ¬ aliases elem [top] →
  read h' elem' = Some x.
Proof.
  intros (t & x' & -> & Hx' & Hcase)%move_out_spec Hx Hal.
  simpl in Hx. rewrite Hx' in Hx. injection Hx as ->.
  destruct elem as [v|a].
  - by destruct Hcase as [-> _].
  - destruct Hcase as (-> & y & Hy & [[-> _]|[Hne ->]]).
    + destruct Hal. simpl. by apply list_elem_of_singleton.
    + simpl. apply list_lookup_insert_eq. rewrite length_insert.
      by eapply lookup_lt_Some.
Qed.

(** ** Removal from a non-empty stack *)


(** C6 (amended): on a non-empty stack [tryPop()] returns the top handle
    and leaves the rest, exactly as [waitAndPop()] and [pop()] do; and
    [tryPop(elem)] is [waitAndPop(elem)] and [pop(elem)] with the flag
    [true] added, for every reference [elem].  When [elem] is live and is
    not the pointee of the top handle, it denotes after the call the
    element the top handle owned; when it is that pointee, the call is a
    move of the element to itself and [elem] denotes what that leaves. *)
Theorem tryPop_nonempty_refines this (elem : reference AdaptElem) top rest σ :
  objects σ !! this = Some (top :: rest) →
  tryPop this σ = Returns top (set_stack this rest σ)
  ∧ tryPop this σ = waitAndPop this σ
  ∧ tryPop this σ = pop this σ
  ∧ tryPop_ref this elem σ
    = outcome_map (pair true) (waitAndPop_ref this elem σ)
  ∧ tryPop_ref this elem σ = outcome_map (pair true) (pop_ref this elem σ)
  ∧ (∀ x, deref (heap σ) top = Some x →
       live (heap σ) elem → ¬ aliases elem [top] →
       ∃ (elem' : reference AdaptElem) σ',
         tryPop_ref this elem σ = Returns (true, elem') σ'
                   ∧ read (heap σ') elem' = Some x
                   ∧ objects σ' !! this = Some rest)
  ∧ (∀ t x, top = Some t → heap σ !! t = Some x → elem = Pointee t →
       ∃ σ', tryPop_ref this elem σ = Returns (true, Pointee t) σ'
             ∧ read (heap σ') (Pointee t) = Some (self_moved x)
             ∧ objects σ' !! this = Some rest).
Proof.
  intros Hs.
  unfold tryPop, waitAndPop, pop, tryPop_ref, waitAndPop_ref, pop_ref.
  rewrite Hs. split_and!; try done.
  - by destruct (move_out top elem (heap σ)) as [[x h]|].
  - by destruct (move_out top elem (heap σ)) as [[x h]|].
  - intros x Hx Hlive Hal.
    destruct (move_out_is_Some top elem (heap σ)) as [[elem' h'] Hmove];
      [by eexists|done|].
    rewrite Hmove. exists elem'. eexists. split; [done|]. simpl. split.
    + by eapply move_out_reads.
    + apply lookup_insert_eq.
  - intros t x -> Hx ->. simpl. rewrite Hx. simpl.
    rewrite decide_True by done. eexists. split; [done|]. simpl. split.
    + apply list_lookup_insert_eq. by eapply lookup_lt_Some.
    + apply lookup_insert_eq.
Qed.


(** ** Invariants of every live stack *)

Section Invariant.
Variable P : list AdaptElem → list shared_ptr → Prop.
Hypothesis P_nil : ∀ h, P h [].
Hypothesis P_tail : ∀ h top rest, P h (top :: rest) → P h rest.
Hypothesis P_push : ∀ h e s, P h s → P (h ++ [e]) (Some (length h) :: s).
Hypothesis P_grow : ∀ h e s, P h s → P (h ++ [e]) s.
Hypothesis P_store : ∀ h a y s, P h s → P (<[a := y]> h) s.

Lemma stack_invariant_init : stack_invariant P init.
Proof. intros this s. unfold init; simpl. by rewrite lookup_empty. Qed.

Lemma stack_invariant_insert h m this s :
  stack_invariant P (mkWorld h m) → P h s →
  stack_invariant P (mkWorld h (<[this := s]> m)).
Proof.
  intros Hinv Hs o t. simpl. destruct (decide (this = o)) as [->|Hne].
  - rewrite lookup_insert_eq. by intros [= <-].
  - rewrite lookup_insert_ne by done. apply Hinv.
Qed.

Lemma stack_invariant_delete h m this :
  stack_invariant P (mkWorld h m) →
  stack_invariant P (mkWorld h (delete this m)).
Proof.
  intros Hinv o t. simpl. destruct (decide (this = o)) as [->|Hne].
  - by rewrite lookup_delete_eq.
  - rewrite lookup_delete_ne by done. apply Hinv.
Qed.

Lemma stack_invariant_store h h' m :
  (∀ s, P h s → P h' s) →
  stack_invariant P (mkWorld h m) → stack_invariant P (mkWorld h' m).
Proof. intros Hmono Hinv o t Ht. apply Hmono. apply (Hinv o t Ht). Qed.

Lemma move_out_keeps top (elem elem' : reference AdaptElem) h h' s :
  move_out top elem h = Some (elem', h') → P h s → P h' s.
Proof.
  intros (t & x & _ & _ & Hcase)%move_out_spec Hs.
  destruct elem as [v|a].
  - destruct Hcase as [_ ->]. by apply P_store.
  - destruct Hcase as (_ & y & _ & [[_ ->]|[_ ->]]).
    + by apply P_store.
    + by do 2 apply P_store.
Qed.

Lemma stack_invariant_move_out h m top (elem elem' : reference AdaptElem) h' :
  move_out top elem h = Some (elem', h') →
  stack_invariant P (mkWorld h m) → stack_invariant P (mkWorld h' m).
Proof.
  intros Hmove. apply stack_invariant_store.
  intros s. by eapply move_out_keeps.
Qed.

Lemma stack_invariant_exec c σ σ' :
  stack_invariant P σ → exec c σ = Some σ' → stack_invariant P σ'.
Proof.
  destruct σ as [h m]. intros Hinv.
  assert (∀ o t, m !! o = Some t → P h t) as Hget by (intros o t; apply Hinv).
  destruct c; simpl;
    unfold default_ctor, dtor, copy_ctor, move_ctor, copy_assign,
      move_assign, mt_swap, swap, push, make_shared, waitAndPop_ref,
      waitAndPop, tryPop_ref, tryPop, pop, pop_ref, set_stack; simpl;
    repeat case_match; simpl; intros [= <-]; simplify_eq; try done.
  all: try (repeat apply stack_invariant_insert;
            try apply stack_invariant_delete; eauto; fail).
  1: { apply stack_invariant_insert; [|by eauto].
       eapply stack_invariant_store; [|exact Hinv]. intros s. apply P_grow. }
  all: apply stack_invariant_insert;
    [ by eapply stack_invariant_move_out
    | eapply move_out_keeps; [eassumption|]; eauto ].
Qed.

End Invariant.

Lemma non_null_exec c σ σ' : non_null σ → exec c σ = Some σ' → non_null σ'.
Proof.
  apply stack_invariant_exec; simpl; try done.
  - intros _ top rest. by inversion 1.
  - intros h e s Hs. by constructor.
Qed.

Lemma non_null_reachable σ : reachable σ → non_null σ.
Proof.
  induction 1 as [|c σ σ' _ IH Hexec].
  - apply stack_invariant_init.
  - by eapply non_null_exec.
Qed.

Lemma valid_grow h e p : valid h p → valid (h ++ [e]) p.
Proof.
  rewrite !valid_lt. intros (a & -> & Hlt). exists a. split; [done|].
  rewrite length_app. lia.
Qed.

Lemma valid_store h a y p : valid h p → valid (<[a := y]> h) p.
Proof. rewrite !valid_lt. by rewrite length_insert. Qed.

Lemma wf_exec c σ σ' : wf σ → exec c σ = Some σ' → wf σ'.
Proof.
  apply stack_invariant_exec; simpl.
  - intros h. split; constructor.
  - intros h top rest [Hnodup Hvalid]. split.
    + by apply NoDup_cons in Hnodup as [_ ?].
    + by apply Forall_cons in Hvalid as [_ ?].
  - intros h e s [Hnodup Hvalid]. split.
    + apply NoDup_cons. split; [|done]. intros Hin.
      rewrite Forall_forall in Hvalid.
      apply Hvalid, valid_lt in Hin as (a & [= <-] & Hlt). lia.
    + constructor.
      * apply valid_lt. exists (length h). split; [done|].
        rewrite length_app. simpl. lia.
      * eapply Forall_impl; [exact Hvalid|]. intros p. apply valid_grow.
  - intros h e s [Hnodup Hvalid]. split; [done|].
    eapply Forall_impl; [exact Hvalid|]. intros p. apply valid_grow.
  - intros h a y s [Hnodup Hvalid]. split; [done|].
    eapply Forall_impl; [exact Hvalid|]. intros p. apply valid_store.
Qed.

Lemma wf_reachable σ : reachable σ → wf σ.
Proof.
  induction 1 as [|c σ σ' _ IH Hexec].
  - apply stack_invariant_init.
  - by eapply wf_exec.
Qed.

(** C9: the world before any call stores no empty handle, and no call
    makes a world that does; so in every reachable world no stack holds
    an empty handle, [waitAndPop()] and [pop()] never return the empty
    handle, and [tryPop()] returns, with the empty handle exactly when
    the stack was empty. *)
Theorem non_null_slots σ :
  reachable σ →
  non_null (@init AdaptElem)
  ∧ non_null σ
  ∧ (∀ c σ', exec c σ = Some σ' → non_null σ')
  ∧ (∀ this σ', waitAndPop this σ ≠ Returns None σ')
  ∧ (∀ this σ', pop this σ ≠ Returns None σ')
  ∧ (∀ this s, objects σ !! this = Some s →
       ∃ p σ', tryPop this σ = Returns p σ' ∧ (p = None ↔ s = [])).
Proof.
  intros Hreach. pose proof (non_null_reachable σ Hreach) as Hnn.
  split_and!.
  - apply non_null_reachable. constructor.
  - done.
  - intros c σ'. by apply non_null_exec.
  - intros this σ'. unfold waitAndPop.
    destruct (objects σ !! this) as [[|top rest]|] eqn:Hs; try done.
    apply Hnn, Forall_cons in Hs as [[a ->] _]. done.
  - intros this σ'. unfold pop.
    destruct (objects σ !! this) as [[|top rest]|] eqn:Hs; try done.
    apply Hnn, Forall_cons in Hs as [[a ->] _]. done.
  - intros this s Hs. unfold tryPop. rewrite Hs.
    destruct s as [|top rest]; [by eexists _, _|].
    apply Hnn, Forall_cons in Hs as [[a ->] _].
    eexists _, _. split; [done|]. by split.
Qed.

(** ** Pushes followed by removals *)





Lemma reachable_exec_all (cs : list (call AdaptElem)) σ σ' :
  reachable σ → exec_all cs σ = Some σ' → reachable σ'.
Proof.
  revert σ. induction cs as [|c cs IH]; intros σ Hσ; simpl.
  - by intros [= <-].
  - destruct (exec c σ) as [σ1|] eqn:Hc; [|done]. simpl.
    apply IH. by econstructor.
Qed.

(** ** What a sequence of removals delivers *)

(** What removals deliver depends on the pointee store and on the
    sequence of the stack they are applied to, not on which object holds
    that sequence. *)
Lemma removed_agree r a b σ1 σ2 :
  heap σ1 = heap σ2 → objects σ1 !! a = objects σ2 !! b →
  match removed r a σ1, removed r b σ2 with
  | Some (x1, τ1), Some (x2, τ2) =>
      x1 = x2 ∧ heap τ1 = heap τ2 ∧ objects τ1 !! a = objects τ2 !! b
  | None, None => True
  | _, _ => False
  end.
Proof.
  intros Hh Hs.
  destruct r as [elem| |elem| | |elem]; simpl;
    unfold waitAndPop_ref, waitAndPop, tryPop_ref, tryPop, pop, pop_ref;
    rewrite Hs; destruct (objects σ2 !! b) as [[|top rest]|]; simpl;
    rewrite ?Hh; try done;
    try (destruct (move_out top (Local elem) (heap σ2)) as [[[x|c] h]|];
         simpl; try done; by rewrite !lookup_insert_eq);
    destruct (deref (heap σ2) top); simpl; try done;
    by rewrite !lookup_insert_eq.
Qed.

Lemma remove_all_agree rs : ∀ a b σ1 σ2,
  heap σ1 = heap σ2 → objects σ1 !! a = objects σ2 !! b →
  fst <$> remove_all rs a σ1 = fst <$> remove_all rs b σ2.
Proof.
  induction rs as [|r rs IH]; intros a b σ1 σ2 Hh Hs; simpl; [done|].
  pose proof (removed_agree r a b σ1 σ2 Hh Hs) as Hr.
  destruct (removed r a σ1) as [[x1 τ1]|], (removed r b σ2) as [[x2 τ2]|];
    simpl; try done.
  destruct Hr as (-> & Hh' & Hs'). specialize (IH a b τ1 τ2 Hh' Hs').
  destruct (remove_all rs a τ1) as [[xs1 υ1]|],
    (remove_all rs b τ2) as [[xs2 υ2]|]; simpl in *; try done.
  by injection IH as ->.
Qed.

(** A reference stays live while the store keeps its size. *)
Lemma live_length h h' (out : reference AdaptElem) :
  length h' = length h → live h out → live h' out.
Proof.
  intros Hlen. destruct out as [v|a]; [done|]. unfold live. simpl.
  rewrite !lookup_lt_is_Some. lia.
Qed.

Lemma aliases_elem_of (out : reference AdaptElem) p s :
  aliases out [p] → p ∈ s → aliases out s.
Proof.
  destruct out as [v|a]; simpl; [done|].
  intros Heq%list_elem_of_singleton. by subst p.
Qed.

(** Every extraction whose output argument is apart from the top handle,
    on a stack whose top handle owns [x], delivers [x], leaves the rest
    of the sequence, and changes at most the cell of the top handle and
    the object its output argument denotes. *)
Lemma extracted_top (e : extraction AdaptElem) this top rest x σ :
  objects σ !! this = Some (top :: rest) →
  deref (heap σ) top = Some x →
  apart (heap σ) [top] e →
  ∃ σ', extracted e this σ = Some (x, σ')
        ∧ objects σ' = <[this := rest]> (objects σ)
        ∧ length (heap σ') = length (heap σ)
        ∧ (∀ p, p ≠ top → apart (heap σ) [p] e →
             deref (heap σ') p = deref (heap σ) p).
Proof.
  intros Hs Hx Hout.
  assert (∀ out : reference AdaptElem, output e = Some out →
            ∃ (out' : reference AdaptElem) h',
              move_out top out (heap σ) = Some (out', h')
              ∧ read h' out' = Some x
              ∧ length h' = length (heap σ)
              ∧ (∀ p, p ≠ top → apart (heap σ) [p] e →
                   deref h' p = deref (heap σ) p)) as Hmove.
  { intros out He. destruct (Hout out He) as [Hlive Hal].
    destruct (move_out_is_Some top out (heap σ)) as [[out' h'] Hmove];
      [by eexists|done|].
    destruct (move_out_frame _ _ _ _ _ Hmove) as [Hlen Hframe].
    exists out', h'. split_and!; [done| |done|].
    - by eapply move_out_reads.
    - intros p Hp Hap. apply Hframe; [done|]. by apply (Hap out He). }
  destruct e as [out| |out| | |out]; simpl;
    unfold waitAndPop_ref, waitAndPop, tryPop_ref, tryPop, pop, pop_ref;
    rewrite Hs; simpl;
    try (destruct (Hmove out eq_refl) as (out' & h' & -> & Hread & Hlen & Hfr);
         simpl; rewrite Hread; simpl; eexists; by split_and!);
    rewrite Hx; simpl; eexists; by split_and!.
Qed.

(** Draining a stack whose handles are valid and distinct, with output
    arguments that are apart from its elements: every extraction returns,
    and the elements come top first. *)
Lemma extract_all_elements this : ∀ s (es : list (extraction AdaptElem)) σ,
  NoDup s → Forall (valid (heap σ)) s →
  objects σ !! this = Some s → length es = length s →
  Forall (apart (heap σ) s) es →
  ∃ xs σ', extract_all es this σ = Some (xs, σ')
           ∧ Some <$> xs = elements (heap σ) s
           ∧ objects σ' = <[this := []]> (objects σ).
Proof.
  induction s as [|top rest IH]; intros es σ Hnodup Hvalid Hs Hlen Hes.
  - destruct es; [|done]. exists [], σ. simpl. split_and!; [done..|].
    by rewrite insert_id.
  - destruct es as [|e es]; [done|]. simpl in Hlen.
    apply NoDup_cons in Hnodup as [Hnotin Hnodup].
    apply Forall_cons in Hvalid as [[x Hx] Hvalid].
    apply Forall_cons in Hes as [He Hes].
    assert (∀ p, p ∈ top :: rest → apart (heap σ) [p] e) as Hap.
    { intros p Hp out Hout. destruct (He out Hout) as [Hlive Hal].
      split; [done|]. intros Hal'. apply Hal. by eapply aliases_elem_of. }
    destruct (extracted_top e this top rest x σ Hs Hx)
      as (σ1 & Hr & Hobj & Hheap & Hframe).
    { apply Hap. by left. }
    destruct (IH es σ1) as (xs & σ' & Hrs & Hxs & Hobj'); try done.
    + eapply Forall_impl; [exact Hvalid|]. intros p.
      rewrite !valid_lt. by rewrite Hheap.
    + rewrite Hobj. apply lookup_insert_eq.
    + lia.
    + eapply Forall_impl; [exact Hes|]. intros e' He' out Hout.
      destruct (He' out Hout) as [Hlive Hal]. split.
      * by eapply live_length.
      * intros Hal'. apply Hal. destruct out as [v|a]; simpl in *; [done|].
        by right.
    + exists (x :: xs), σ'. split_and!.
      * simpl. rewrite Hr. simpl. by rewrite Hrs.
      * unfold elements in *. rewrite !fmap_cons, Hx, Hxs. f_equal.
        apply list_fmap_ext. intros i p Hp.
        assert (p ∈ rest) as Hin by by eapply list_elem_of_lookup_2.
        apply Hframe; [by intros ->|]. apply Hap. by right.
      * by rewrite Hobj', Hobj, insert_insert_eq.
Qed.

(** X1: in a well-formed world, as many extractions as the stack is long,
    each in any of the six forms and each with an output argument, if it
    has one, that is live and is no element of the stack, all return,
    deliver exactly the elements of the stack, top first, and leave the
    stack empty: after them [tryPop()] finds nothing and [pop()]
    throws. *)
Theorem drain_delivers_every_element this s
    (es : list (extraction AdaptElem)) σ :
  wf σ →
  objects σ !! this = Some s →
  length es = length s →
  Forall (apart (heap σ) s) es →
  ∃ xs σ', extract_all es this σ = Some (xs, σ')
           ∧ Some <$> xs = elements (heap σ) s
           ∧ objects σ' !! this = Some []
           ∧ tryPop this σ' = Returns None σ'
           ∧ pop this σ' = Throws (runtime_error empty_message) σ'.
Proof.
  intros Hwf Hs Hlen Hes. destruct (Hwf _ _ Hs) as [Hnodup Hvalid].
  destruct (extract_all_elements this s es σ Hnodup Hvalid Hs Hlen Hes)
    as (xs & σ' & Hrs & Hxs & Hobj).
  exists xs, σ'. assert (objects σ' !! this = Some []) as Hempty
    by (rewrite Hobj; apply lookup_insert_eq).
  unfold tryPop, pop. by rewrite Hempty.
Qed.

(** X2: in a reachable world no call on a live stack is undefined
    behaviour: the removals never call [top] on an empty stack and never
    dereference an empty or dangling handle, whatever form they take; the
    forms that write through a reference are defined for a variable of
    the caller's and for every other live object, the pointee of a stored
    handle included. *)
Theorem reachable_calls_defined this elem s σ :
  reachable σ →
  objects σ !! this = Some s →
  push this elem σ ≠ Undefined
  ∧ waitAndPop_ref this (Local elem) σ ≠ Undefined
  ∧ waitAndPop this σ ≠ Undefined
  ∧ tryPop_ref this (Local elem) σ ≠ Undefined
  ∧ tryPop this σ ≠ Undefined
  ∧ pop this σ ≠ Undefined
  ∧ pop_ref this (Local elem) σ ≠ Undefined
  ∧ ∀ out : reference AdaptElem, live (heap σ) out →
      waitAndPop_ref this out σ ≠ Undefined
      ∧ tryPop_ref this out σ ≠ Undefined
      ∧ pop_ref this out σ ≠ Undefined.
Proof.
  intros Hwf%wf_reachable Hs. destruct (Hwf _ _ Hs) as [_ Hvalid].
  assert (∀ out : reference AdaptElem, live (heap σ) out →
            waitAndPop_ref this out σ ≠ Undefined
            ∧ tryPop_ref this out σ ≠ Undefined
            ∧ pop_ref this out σ ≠ Undefined) as Hrefs.
  { intros out Hlive. unfold waitAndPop_ref, tryPop_ref, pop_ref.
    rewrite Hs. destruct s as [|top rest]; [by split_and!|].
    apply Forall_cons in Hvalid as [Hx _].
    destruct (move_out_is_Some top out (heap σ) Hx Hlive) as [[out' h'] ->].
    by split_and!. }
  destruct (Hrefs (Local elem)) as (H1 & H2 & H3); [by eexists|].
  split_and!; try done.
  - unfold push. rewrite Hs.
    by destruct (make_shared elem (heap σ)) as [[d h]|].
  - unfold waitAndPop. rewrite Hs. by destruct s.
  - unfold tryPop. rewrite Hs. by destruct s.
  - unfold pop. rewrite Hs. by destruct s.
Qed.

(** ** Insertion that succeeds *)

(** X3: a [push] on a live stack whose [make_shared] succeeds returns;
    the new top is a handle that was not valid before and now owns
    [elem]; the handles below, every other stack and every cell that
    existed are unchanged; and a [pop()] right after hands that handle
    back and restores the sequence of every stack. *)
Theorem push_then_pop this elem s σ :
  objects σ !! this = Some s →
  make_shared_throws (heap σ) elem = false →
  let data := Some (length (heap σ)) in
  ∃ σ' σ'', push this elem σ = Returns () σ'
    ∧ objects σ' !! this = Some (data :: s)
    ∧ ¬ valid (heap σ) data
    ∧ deref (heap σ') data = Some elem
    ∧ size this σ' = Some (S (length s))
    ∧ (∀ o, o ≠ this → objects σ' !! o = objects σ !! o)
    ∧ (∀ p, valid (heap σ) p → deref (heap σ') p = deref (heap σ) p)
    ∧ pop this σ' = Returns data σ''
    ∧ objects σ'' = objects σ
    ∧ heap σ'' = heap σ ++ [elem].
Proof.
  intros Hs Hok data. unfold push, make_shared. rewrite Hok, Hs.
  eexists _, _. split; [done|]. unfold pop, size. simpl.
  rewrite !lookup_insert_eq. simpl. split_and!; try done.
  - rewrite valid_lt. intros (a & [= <-] & Hlt). lia.
  - by rewrite lookup_app_r, Nat.sub_diag by lia.
  - intros o Hne. by apply lookup_insert_ne.
  - intros p (a & -> & Hlt)%valid_lt. simpl. by apply lookup_app_l.
  - simpl. rewrite insert_insert_eq. by apply insert_id.
Qed.

(** ** Moves and swaps *)

(** X4: move construction from a live [rhs] into fresh storage hands the
    whole sequence over: removals from the new stack deliver what the same
    removals from [rhs] would have delivered, [rhs] is left empty, and no
    cell and no other stack changes. *)
Theorem move_ctor_relocates this rhs s σ :
  objects σ !! rhs = Some s →
  objects σ !! this = None →
  ∃ σ', move_ctor this rhs σ = Returns () σ'
        ∧ objects σ' !! this = Some s
        ∧ objects σ' !! rhs = Some []
        ∧ heap σ' = heap σ
        ∧ (∀ o, o ≠ this → o ≠ rhs → objects σ' !! o = objects σ !! o)
        ∧ (∀ rs, fst <$> remove_all rs this σ' = fst <$> remove_all rs rhs σ)
        ∧ tryPop rhs σ' = Returns None σ'.
Proof.
  intros Hrhs Hthis. assert (this ≠ rhs) as Hne by (intros ->; congruence).
  unfold move_ctor. rewrite Hthis, Hrhs. eexists. split; [done|].
  assert (objects (set_stack this s (set_stack rhs [] σ)) !! rhs = Some [])
    as Hempty.
  { rewrite set_stack_lookup_ne by done. apply set_stack_lookup. }
  split_and!; [apply set_stack_lookup|done|done| | |].
  - intros o H1 H2. by rewrite !set_stack_lookup_ne.
  - intros rs. apply remove_all_agree; [done|].
    by rewrite set_stack_lookup.
  - unfold tryPop. by rewrite Hempty.
Qed.

(** X5: move assignment between two distinct live stacks replaces what
    the destination held by the sequence of the source: removals from the
    destination deliver what the same removals from the source would have
    delivered, the source is left empty, and no cell and no other stack
    changes. *)
Theorem move_assign_relocates this rhs d s σ :
  this ≠ rhs →
  objects σ !! this = Some d →
  objects σ !! rhs = Some s →
  ∃ σ', move_assign this rhs σ = Returns () σ'
        ∧ objects σ' !! this = Some s
        ∧ objects σ' !! rhs = Some []
        ∧ heap σ' = heap σ
        ∧ (∀ o, o ≠ this → o ≠ rhs → objects σ' !! o = objects σ !! o)
        ∧ (∀ rs, fst <$> remove_all rs this σ' = fst <$> remove_all rs rhs σ)
        ∧ tryPop rhs σ' = Returns None σ'.
Proof.
  intros Hne Hthis Hrhs.
  unfold move_assign. rewrite decide_True by done. rewrite Hthis, Hrhs.
  eexists. split; [done|].
  assert (objects (set_stack this s (set_stack rhs [] σ)) !! rhs = Some [])
    as Hempty.
  { rewrite set_stack_lookup_ne by done. apply set_stack_lookup. }
  split_and!; [apply set_stack_lookup|done|done| | |].
  - intros o H1 H2. by rewrite !set_stack_lookup_ne.
  - intros rs. apply remove_all_agree; [done|].
    by rewrite set_stack_lookup.
  - unfold tryPop. by rewrite Hempty.
Qed.

(** X6: [swap] between two distinct live stacks exchanges their sequences
    and touches nothing else; it does the same with its operands
    exchanged and as the free function; and swapping again gives back the
    world it started from. *)
Theorem swap_exchanges this rhs s1 s2 σ :
  this ≠ rhs →
  objects σ !! this = Some s1 →
  objects σ !! rhs = Some s2 →
  ∃ σ', swap this rhs σ = Returns () σ'
        ∧ objects σ' !! this = Some s2
        ∧ objects σ' !! rhs = Some s1
        ∧ heap σ' = heap σ
        ∧ (∀ o, o ≠ this → o ≠ rhs → objects σ' !! o = objects σ !! o)
        ∧ swap rhs this σ = Returns () σ'
        ∧ mt_swap this rhs σ = Returns () σ'
        ∧ swap this rhs σ' = Returns () σ.
Proof.
  intros Hne Hthis Hrhs. assert (rhs ≠ this) as Hne' by done.
  destruct σ as [h m]. simpl in *.
  unfold mt_swap, swap. rewrite !decide_True by done. simpl.
  rewrite Hthis, Hrhs. eexists. split; [done|]. unfold set_stack. simpl.
  rewrite lookup_insert_eq.
  rewrite (lookup_insert_ne (<[rhs := s1]> m) this rhs) by done.
  rewrite lookup_insert_eq.
  split_and!; try done.
  - intros o H1 H2. by rewrite !lookup_insert_ne.
  - f_equal. f_equal. by apply insert_insert_ne.
  - rewrite decide_True by done. f_equal. f_equal. apply map_eq. intros o.
    destruct (decide (o = this)) as [->|H1].
    { by rewrite lookup_insert_eq. }
    rewrite lookup_insert_ne by done.
    destruct (decide (o = rhs)) as [->|H2].
    { by rewrite lookup_insert_eq. }
    by rewrite !lookup_insert_ne.
Qed.

(** ** Copies share their elements *)

(** X7: a copy holds the same handles as its source, so the two stacks
    share every element.  After a copy, [pop(elem)] on the copy with a
    live reference that is not the pointee of the top handle leaves in
    the reference the element the top handle owned, and moves that
    element out of the cell the source still refers to: the source keeps
    its sequence, its top element is now in the moved-from state, and
    [pop(elem)] on the source delivers that moved-from value.  When the
    reference is the pointee of the top handle, the source's top element
    is left as a move to itself leaves it.  With [pop()] instead, both
    stacks hand out one and the same handle and the element stays as it
    was. *)
Theorem copy_shares_pointees this rhs (out : reference AdaptElem) v a rest x y σ :
  objects σ !! rhs = Some (Some a :: rest) →
  objects σ !! this = None →
  heap σ !! a = Some x →
  read (heap σ) out = Some y →
  out ≠ Pointee a →
  ∃ σ1, copy_ctor this rhs σ = Returns () σ1
    ∧ (∃ (out' : reference AdaptElem) σ2 σ3,
         pop_ref this out σ1 = Returns out' σ2
         ∧ read (heap σ2) out' = Some x
         ∧ objects σ2 !! rhs = Some (Some a :: rest)
         ∧ deref (heap σ2) (Some a) = Some (moved_from y x)
         ∧ pop_ref rhs (Local v) σ2 = Returns (Local (moved_from y x)) σ3)
    ∧ (∃ σ2 σ3, pop_ref this (Pointee a) σ1 = Returns (Pointee a) σ2
         ∧ objects σ2 !! rhs = Some (Some a :: rest)
         ∧ deref (heap σ2) (Some a) = Some (self_moved x)
         ∧ pop_ref rhs (Local v) σ2 = Returns (Local (self_moved x)) σ3)
    ∧ (∃ σ2 σ3, pop this σ1 = Returns (Some a) σ2
         ∧ pop rhs σ2 = Returns (Some a) σ3
         ∧ deref (heap σ3) (Some a) = Some x).
Proof.
  intros Hrhs Hthis Hx Hy Hout.
  assert (this ≠ rhs) as Hne by (intros ->; congruence).
  assert (a < length (heap σ)) as Hlt by by eapply lookup_lt_Some.
  unfold copy_ctor. rewrite Hthis, Hrhs. eexists. split; [done|].
  split_and!.
  - unfold pop_ref at 1. rewrite set_stack_lookup. simpl. rewrite Hx. simpl.
    destruct out as [u|b]; simpl in Hy.
    + injection Hy as ->. eexists _, _, _. split; [done|]. simpl.
      unfold pop_ref. simpl.
      rewrite lookup_insert_ne by done. rewrite lookup_insert_ne by done.
      rewrite Hrhs. simpl. rewrite list_lookup_insert_eq by done. simpl.
      by split_and!.
    + rewrite Hy. simpl.
      assert (b ≠ a) as Hba by congruence.
      rewrite decide_False by done.
      eexists _, _, _. split; [done|]. simpl. unfold pop_ref. simpl.
      rewrite lookup_insert_ne by done. rewrite lookup_insert_ne by done.
      rewrite Hrhs. simpl.
      assert (<[b := x]> (<[a := moved_from y x]> (heap σ)) !! a
              = Some (moved_from y x)) as Ha.
      { rewrite list_lookup_insert_ne by done.
        by apply list_lookup_insert_eq. }
      rewrite Ha. simpl. split_and!; try done.
      apply list_lookup_insert_eq. rewrite length_insert.
      by eapply lookup_lt_Some.
  - unfold pop_ref at 1. rewrite set_stack_lookup. simpl. rewrite Hx. simpl.
    rewrite decide_True by done.
    eexists _, _. split; [done|]. simpl. unfold pop_ref. simpl.
    rewrite lookup_insert_ne by done. rewrite lookup_insert_ne by done.
    rewrite Hrhs. simpl. rewrite list_lookup_insert_eq by done. simpl.
    by split_and!.
  - unfold pop at 1. rewrite set_stack_lookup.
    eexists _, _. split; [done|]. unfold pop.
    rewrite set_stack_lookup_ne by done. rewrite set_stack_lookup_ne by done.
    rewrite Hrhs. split; [done|]. simpl. exact Hx.
Qed.

(** X8: the sequences of a copy and of its source are independent: in a
    well-formed world, a [push] onto the copy leaves the sequence and the
    elements of the source as they were, and so does a [tryPop()] from
    the copy, which leaves every cell alone as well. *)
Theorem copy_is_independent this rhs elem s σ :
  wf σ →
  objects σ !! rhs = Some s →
  objects σ !! this = None →
  make_shared_throws (heap σ) elem = false →
  ∃ σ1, copy_ctor this rhs σ = Returns () σ1
    ∧ (∃ σ2, push this elem σ1 = Returns () σ2
         ∧ objects σ2 !! rhs = Some s
         ∧ elements (heap σ2) s = elements (heap σ) s)
    ∧ (∃ p σ2, tryPop this σ1 = Returns p σ2
         ∧ objects σ2 !! rhs = Some s
         ∧ heap σ2 = heap σ).
Proof.
  intros Hwf Hrhs Hthis Hok.
  assert (this ≠ rhs) as Hne by (intros ->; congruence).
  destruct (Hwf _ _ Hrhs) as [_ Hvalid].
  unfold copy_ctor. rewrite Hthis, Hrhs. eexists. split; [done|]. split.
  - unfold push, make_shared. simpl. rewrite Hok, lookup_insert_eq.
    eexists. split; [done|]. simpl.
    rewrite lookup_insert_ne by done. rewrite lookup_insert_ne by done.
    split; [done|]. unfold elements. apply list_fmap_ext. intros i p Hp.
    rewrite Forall_lookup in Hvalid.
    apply Hvalid, valid_lt in Hp as (b & -> & Hlt). simpl.
    by apply lookup_app_l.
  - unfold tryPop. rewrite set_stack_lookup.
    destruct s as [|top rest]; eexists _, _; (split; [done|]); simpl.
    + by rewrite lookup_insert_ne.
    + rewrite lookup_insert_ne by done. by rewrite lookup_insert_ne.
Qed.

(** ** Construction and destruction *)

(** X9: a default-constructed stack is empty: its size is zero,
    [tryPop()] finds nothing, [pop()] throws, [waitAndPop()] run alone
    would wait; no cell is touched, and destroying the stack gives back
    the world as it was before the construction. *)
Theorem fresh_stack_is_empty this σ :
  objects σ !! this = None →
  ∃ σ', default_ctor this σ = Returns () σ'
        ∧ size this σ' = Some 0
        ∧ heap σ' = heap σ
        ∧ tryPop this σ' = Returns None σ'
        ∧ pop this σ' = Throws (runtime_error empty_message) σ'
        ∧ waitAndPop this σ' = Blocks
        ∧ dtor this σ' = Returns () σ.
Proof.
  intros Hthis. unfold default_ctor. rewrite Hthis. eexists. split; [done|].
  unfold size, tryPop, pop, waitAndPop, dtor. rewrite set_stack_lookup.
  split_and!; try done. destruct σ as [h m]. unfold set_stack. simpl in *.
  by rewrite delete_insert_id.
Qed.

(** ** Stored handles *)

(** X15: in every reachable world the handles a stack stores are pairwise
    distinct and each owns a cell: no stack holds one element twice and
    every stored element can be read. *)
Theorem stored_handles_alive_distinct this s σ :
  reachable σ →
  objects σ !! this = Some s →
  NoDup s ∧ ∃ xs, elements (heap σ) s = Some <$> xs.
Proof.
  intros Hwf%wf_reachable Hs. destruct (Hwf _ _ Hs) as [Hnodup Hvalid].
  split; [done|]. clear Hs Hnodup.
  induction s as [|p s IH]; [by exists []|].
  apply Forall_cons in Hvalid as [[x Hx] Hvalid].
  destruct (IH Hvalid) as [xs Hxs]. exists (x :: xs).
  unfold elements in *. by rewrite !fmap_cons, Hx, Hxs.
Qed.
End Properties.

(** * Properties of the thread layer *)

Section ThreadProperties.
Context {AdaptElem : Type} `{!Element AdaptElem}.

Abbreviation waiter := (option AdaptElem * wait_pc AdaptElem)%type.

Implicit Types (c : Config AdaptElem) (ws : list waiter).
Implicit Types (w : waiter) (f g : wait_pc AdaptElem → nat).
Implicit Types (σ : World AdaptElem) (h : list AdaptElem).

(** ** Tallies *)

Lemma tally_insert f ws i w w' :
  ws !! i = Some w →
  tally f (<[i := w']> ws) + f w.2 = tally f ws + f w'.2.
Proof.
  unfold tally. revert i. induction ws as [|v ws IH]; intros [|i] Hi; try done.
  - injection Hi as ->. simpl. lia.
  - simpl in *. specialize (IH i Hi). lia.
Qed.

Lemma tally_lookup_le f ws i w : ws !! i = Some w → f w.2 ≤ tally f ws.
Proof.
  unfold tally. revert i. induction ws as [|v ws IH]; intros [|i] Hi; try done.
  - injection Hi as ->. simpl. lia.
  - simpl in *. specialize (IH i Hi). lia.
Qed.

Lemma tally_le f g ws : (∀ pc, f pc ≤ g pc) → tally f ws ≤ tally g ws.
Proof.
  intros Hle. unfold tally. induction ws as [|v ws IH]; simpl; [done|].
  specialize (Hle v.2). lia.
Qed.

Lemma tally_zero f ws : tally f ws = 0 ↔ Forall (λ w, f w.2 = 0) ws.
Proof.
  unfold tally. induction ws as [|v ws IH]; simpl.
  - split; [constructor|done].
  - rewrite Forall_cons, <- IH. lia.
Qed.

Lemma tally_split f g k ws :
  Forall (λ w, f w.2 + g w.2 + k w.2 = 1) ws →
  tally f ws + tally g ws + tally k ws = length ws.
Proof.
  unfold tally. induction 1 as [|v ws Hv _ IH]; simpl; [done|]. lia.
Qed.

Lemma tally_fmap_asleep (fs : list (option AdaptElem)) f :
  tally f ((λ x, (x, W_wait)) <$> fs) = length fs * f W_wait.
Proof.
  unfold tally. induction fs as [|x fs IH]; simpl; [done|].
  f_equal. exact IH.
Qed.

Lemma existsb_waiting_false ws :
  existsb waiting ws = false ↔ tally asleep ws = 0.
Proof.
  unfold tally. induction ws as [|[x pc] ws IH]; simpl; [done|].
  unfold waiting at 1. destruct pc; simpl; try exact IH.
  split; [done|lia].
Qed.

Lemma tally_holding_le_1 c : mutex_ok c → tally holding (waiters c) ≤ 1.
Proof. unfold mutex_ok. destruct (mutex c) as [[|j]|]; lia. Qed.

Lemma wake_up_Some i ws ws' :
  wake_up i ws = Some ws' →
  ∃ x, ws !! i = Some (x, W_wait) ∧ ws' = <[i := (x, W_lock)]> ws.
Proof.
  unfold wake_up. destruct (ws !! i) as [[x []]|]; try done.
  intros [= <-]. by exists x.
Qed.

Lemma notify_one_Some wake ws ws' :
  notify_one wake ws = Some ws' →
  wake_up wake ws = Some ws' ∨ (ws' = ws ∧ tally asleep ws = 0).
Proof.
  unfold notify_one. destruct (wake_up wake ws) as [ws1|]; [by left|].
  destruct (existsb waiting ws) eqn:Hex; [done|].
  intros [= <-]. right. split; [done|]. by apply existsb_waiting_false.
Qed.

(** ** The mutex *)

(** A waiter moves between two points on the same side of its critical
    section; the mutex is not touched. *)
Lemma mutex_ok_move wd wd' mx pc ws i x pc1 pc2 :
  ws !! i = Some (x, pc1) →
  holding pc1 = holding pc2 →
  mutex_ok (mkConfig wd mx pc ws) →
  mutex_ok (mkConfig wd' mx pc (<[i := (x, pc2)]> ws)).
Proof.
  intros Hi Heq. unfold mutex_ok. simpl.
  pose proof (tally_insert holding ws i _ (x, pc2) Hi) as Hins. simpl in Hins.
  destruct mx as [[|j]|]; simpl; [intros [? ?]; split; lia| |intros [? ?]; split; lia].
  intros (Hp & Ht & w & Hj & Hw). split_and!; [done|lia|].
  destruct (decide (i = j)) as [->|Hne].
  - exists (x, pc2). rewrite list_lookup_insert_eq by by eapply lookup_lt_Some.
    split; [done|]. simpl. rewrite Hj in Hi. injection Hi as ->. simpl in Hw. lia.
  - exists w. by rewrite list_lookup_insert_ne.
Qed.

Lemma mutex_ok_acquire wd pc ws i x pc1 pc2 :
  ws !! i = Some (x, pc1) →
  holding pc1 = 0 → holding pc2 = 1 →
  mutex_ok (mkConfig wd None pc ws) →
  mutex_ok (mkConfig wd (Some (Waiter i)) pc (<[i := (x, pc2)]> ws)).
Proof.
  intros Hi H1 H2. unfold mutex_ok. simpl.
  pose proof (tally_insert holding ws i _ (x, pc2) Hi) as Hins. simpl in Hins.
  intros [Hp Ht]. split_and!; [done|lia|].
  exists (x, pc2). rewrite list_lookup_insert_eq by by eapply lookup_lt_Some. done.
Qed.

Lemma mutex_ok_release wd mx pc ws i x pc1 pc2 :
  ws !! i = Some (x, pc1) →
  holding pc1 = 1 → holding pc2 = 0 →
  mutex_ok (mkConfig wd mx pc ws) →
  mutex_ok (mkConfig wd None pc (<[i := (x, pc2)]> ws)).
Proof.
  intros Hi H1 H2. unfold mutex_ok. simpl.
  pose proof (tally_insert holding ws i _ (x, pc2) Hi) as Hins.
  pose proof (tally_lookup_le holding ws i _ Hi) as Hle. simpl in Hins, Hle.
  destruct mx as [[|j]|]; simpl; intros; destruct_and?; split; lia.
Qed.

Lemma mutex_ok_step this a c c' :
  mutex_ok c → step this a c = Some c' → mutex_ok c'.
Proof.
  destruct c as [wd mx pc ws]. intros Hm. destruct a as [wake|i|i]; simpl.
  - unfold step_pusher; simpl. destruct pc; simpl; try done.
    + destruct (make_shared elem (heap wd)) as [[d h]|]; intros [= <-];
        revert Hm; unfold mutex_ok; simpl; by destruct mx as [[|j]|].
    + destruct mx; [done|]. intros [= <-].
      revert Hm; unfold mutex_ok; simpl. lia.
    + destruct (objects wd !! this) as [s|]; [|done]. simpl. intros [= <-].
      revert Hm; unfold mutex_ok; simpl; by destruct mx as [[|j]|].
    + intros [= <-]. revert Hm; unfold mutex_ok; simpl.
      destruct mx as [[|j]|]; simpl; lia.
    + destruct (notify_one wake ws) as [ws'|] eqn:Hn; [|done].
      simpl. intros [= <-].
      apply notify_one_Some in Hn as [(x & Hw & ->)%wake_up_Some|[-> _]].
      * by eapply (mutex_ok_move wd wd mx P_notify_one ws wake x W_wait W_lock).
      * revert Hm; unfold mutex_ok; simpl; by destruct mx as [[|j]|].
  - unfold step_waiter; simpl.
    destruct (ws !! i) as [[x pc1]|] eqn:Hi; [|done]. simpl.
    destruct pc1; simpl; try done.
    + destruct mx; [done|]. intros [= <-].
      by eapply mutex_ok_acquire.
    + destruct (objects wd !! this) as [[|top rest]|]; [| |done];
        simpl; intros [= <-].
      * by eapply mutex_ok_release.
      * by eapply mutex_ok_move.
    + destruct (objects wd !! this) as [[|top rest]|]; try done. simpl.
      destruct x as [elem|].
      * destruct (move_out top (Local elem) (heap wd)) as [[[y|b] h]|];
          try done.
        intros [= <-]. by eapply mutex_ok_move.
      * intros [= <-]. by eapply mutex_ok_move.
    + intros [= <-]. by eapply mutex_ok_release.
  - destruct (wake_up i ws) as [ws'|] eqn:Hw; [|done]. simpl. intros [= <-].
    apply wake_up_Some in Hw as (x & Hw & ->).
    by eapply (mutex_ok_move wd wd mx pc ws i x W_wait W_lock).
Qed.

(** ** The pushed element *)

Section Scenario.
Variables (this : nat) (σ : World AdaptElem) (elem : AdaptElem).
Hypothesis Hempty : objects σ !! this = Some [].
Hypothesis Hwrap : make_shared_throws (heap σ) elem = false.

Lemma stack_is_lookup (m : gmap nat (list shared_ptr)) s :
  m = <[this := s]> (objects σ) → m !! this = Some s.
Proof. intros ->. apply lookup_insert_eq. Qed.

Lemma delivered_took_zero h ws :
  tally took ws = 0 → Forall (delivered h elem) ws.
Proof.
  rewrite tally_zero. intros Hz. eapply Forall_impl; [exact Hz|].
  intros [x pc]. unfold delivered. simpl. by destruct pc.
Qed.

(** A waiter moves without touching the world, neither taking nor going
    to sleep. *)
Lemma phase_ok_move wd mx mx' pc ws i x pc1 pc2 :
  ws !! i = Some (x, pc1) →
  took pc1 = took pc2 → taking pc2 ≤ taking pc1 → awake pc1 ≤ awake pc2 →
  (∀ h, delivered h elem (x, pc1) → delivered h elem (x, pc2)) →
  phase_ok this σ elem (mkConfig wd mx pc ws) →
  phase_ok this σ elem (mkConfig wd mx' pc (<[i := (x, pc2)]> ws)).
Proof.
  intros Hi Htook Htaking Hawake Hdel. unfold phase_ok. simpl.
  pose proof (tally_insert took ws i _ (x, pc2) Hi) as Hins1.
  pose proof (tally_insert taking ws i _ (x, pc2) Hi) as Hins2.
  pose proof (tally_insert awake ws i _ (x, pc2) Hi) as Hins3.
  simpl in Hins1, Hins2, Hins3.
  assert (∀ h, Forall (delivered h elem) ws →
               Forall (delivered h elem) (<[i := (x, pc2)]> ws)) as Hall.
  { intros h Hws. apply Forall_insert; [done|]. apply Hdel.
    rewrite Forall_lookup in Hws. by eapply Hws. }
  destruct pc; try done.
  - intros (? & ? & ? & ? & ?). split_and!; try done; lia.
  - intros (? & ? & ? & ? & ?). split_and!; try done; lia.
  - intros (? & ? & ? & ? & ?). split_and!; try done; lia.
  - intros (? & ? & ?). split_and!; try done; lia.
  - intros [(? & ? & ?)|(? & ? & ? & ?)]; [left|right];
      split_and!; try done; try lia. by apply Hall.
  - intros [[(? & ? & ?) ?]|(? & ? & ? & ?)]; [left|right];
      split_and!; try done; try lia. by apply Hall.
Qed.

Lemma phase_ok_wake_up wd mx mx' pc ws i ws' :
  wake_up i ws = Some ws' →
  phase_ok this σ elem (mkConfig wd mx pc ws) →
  phase_ok this σ elem (mkConfig wd mx' pc ws').
Proof.
  intros (x & Hi & ->)%wake_up_Some.
  apply (phase_ok_move wd mx mx' pc ws i x W_wait W_lock); simpl; try done; lia.
Qed.

(** The predicate is false: the waiter goes to sleep. *)
Lemma phase_ok_sleep wd mx mx' pc ws i x :
  ws !! i = Some (x, W_pred) →
  objects wd !! this = Some [] →
  phase_ok this σ elem (mkConfig wd mx pc ws) →
  phase_ok this σ elem (mkConfig wd mx' pc (<[i := (x, W_wait)]> ws)).
Proof.
  intros Hi Hs. unfold phase_ok. simpl.
  pose proof (tally_insert took ws i _ (x, W_wait) Hi) as Hins1.
  pose proof (tally_insert taking ws i _ (x, W_wait) Hi) as Hins2.
  simpl in Hins1, Hins2.
  assert (∀ h, Forall (delivered h elem) ws →
               Forall (delivered h elem) (<[i := (x, W_wait)]> ws)) as Hall.
  { intros h Hws. by apply Forall_insert. }
  assert (∀ s, objects wd = <[this := s]> (objects σ) → s = []) as Hnil.
  { intros s Heq%stack_is_lookup. congruence. }
  destruct pc; try done.
  - intros (? & ? & ? & ? & ?). split_and!; try done; lia.
  - intros (? & ? & ? & ? & ?). split_and!; try done; lia.
  - intros (? & ? & ? & ? & ?). split_and!; try done; lia.
  - intros (? & ? & ?). split_and!; try done; lia.
  - intros [(? & ?%Hnil & ?)|(? & ? & ? & ?)]; [done|right].
    split_and!; try done; try lia. by apply Hall.
  - intros [[(? & ?%Hnil & ?) ?]|(? & ? & ? & ?)]; [done|right].
    split_and!; try done; try lia. by apply Hall.
Qed.

(** The predicate is true: the waiter goes on to the removal. *)
Lemma phase_ok_found wd mx pc ws i x top rest :
  ws !! i = Some (x, W_pred) →
  objects wd !! this = Some (top :: rest) →
  phase_ok this σ elem (mkConfig wd mx pc ws) →
  phase_ok this σ elem (mkConfig wd mx pc (<[i := (x, W_take)]> ws)).
Proof.
  intros Hi Hs. unfold phase_ok. simpl.
  pose proof (tally_insert took ws i _ (x, W_take) Hi) as Hins1.
  pose proof (tally_insert awake ws i _ (x, W_take) Hi) as Hins3.
  pose proof (tally_lookup_le holding ws i _ Hi) as Hle.
  simpl in Hins1, Hins3, Hle.
  assert (∀ s, objects wd = <[this := s]> (objects σ) → s = top :: rest) as Hcons.
  { intros s Heq%stack_is_lookup. congruence. }
  destruct pc; try done.
  - by intros (? & ? & ?%Hcons & ?).
  - by intros (? & ? & ?%Hcons & ?).
  - by intros (? & ? & ?%Hcons & ?).
  - intros (? & ? & ?). split_and!; try done; lia.
  - intros [(? & ? & ?)|(?%Hcons & ?)]; [left|done].
    split_and!; try done; lia.
  - intros [[(? & ? & ?) ?]|(?%Hcons & ?)]; [left|done].
    split_and!; try done; lia.
Qed.

(** The removal itself: the element leaves the stack and the waiter
    leaves with it. *)
Lemma phase_ok_take wd mx pc ws i x top rest r h' :
  ws !! i = Some (x, W_take) →
  objects wd !! this = Some (top :: rest) →
  (heap wd = heap σ ++ [elem] → top = Some (length (heap σ)) →
   delivers h' r elem) →
  mutex_ok (mkConfig wd mx pc ws) →
  phase_ok this σ elem (mkConfig wd mx pc ws) →
  phase_ok this σ elem
    (mkConfig (mkWorld h' (<[this := rest]> (objects wd))) mx pc
       (<[i := (x, W_unlock r)]> ws)).
Proof.
  intros Hi Hs Hr Hm. unfold phase_ok. simpl.
  pose proof (tally_insert took ws i _ (x, W_unlock r) Hi) as Hins1.
  pose proof (tally_insert taking ws i _ (x, W_unlock r) Hi) as Hins2.
  pose proof (tally_lookup_le holding ws i _ Hi) as Hle.
  pose proof (tally_le taking holding ws) as Hth.
  pose proof (tally_holding_le_1 _ Hm) as Hh1.
  simpl in Hins1, Hins2, Hle, Hh1.
  assert (tally taking ws ≤ tally holding ws) as Hth'
    by (apply Hth; intros []; simpl; lia).
  assert (∀ s, objects wd = <[this := s]> (objects σ) → s = top :: rest) as Hcons.
  { intros s Heq%stack_is_lookup. congruence. }
  assert (heap wd = heap σ ++ [elem] →
          objects wd = <[this := [Some (length (heap σ))]]> (objects σ) →
          tally took ws = 0 →
          <[this := rest]> (objects wd) = <[this := []]> (objects σ)
          ∧ tally took (<[i := (x, W_unlock r)]> ws) = 1
          ∧ tally taking (<[i := (x, W_unlock r)]> ws) = 0
          ∧ Forall (delivered h' elem) (<[i := (x, W_unlock r)]> ws)) as Hgo.
  { intros Hh Hobj Ht. pose proof (Hcons _ Hobj) as [= <- <-].
    split_and!; [by rewrite Hobj, insert_insert_eq|lia|lia|].
    apply Forall_insert; [by apply delivered_took_zero|].
    unfold delivered. simpl. by apply Hr. }
  destruct pc; try done.
  - by intros (? & ? & ?%Hcons & ?).
  - by intros (? & ? & ?%Hcons & ?).
  - by intros (? & ? & ?%Hcons & ?).
  - revert Hm. unfold mutex_ok. simpl.
    destruct mx as [[|j]|]; simpl; intros; destruct_and?; lia.
  - intros [(? & ? & ?)|(?%Hcons & ?)]; [right|done]. by apply Hgo.
  - intros [[(? & ? & ?) ?]|(?%Hcons & ?)]; [right|done]. by apply Hgo.
Qed.

Lemma forms_step a c c' :
  step this a c = Some c' → (waiters c').*1 = (waiters c).*1.
Proof.
  assert (∀ ws i x pc1 pc2, ws !! i = Some (x, pc1) →
            (<[i := (x, pc2)]> ws).*1 = ws.*1) as Hins.
  { intros ws i x pc1 pc2 Hi. rewrite list_fmap_insert. simpl.
    apply list_insert_id. by rewrite list_lookup_fmap, Hi. }
  destruct c as [wd mx pc ws]. destruct a as [wake|i|i]; simpl.
  - unfold step_pusher; simpl. destruct pc; simpl; try done.
    + by destruct (make_shared elem0 (heap wd)) as [[d h]|]; intros [= <-].
    + destruct mx; [done|]. by intros [= <-].
    + destruct (objects wd !! this) as [s|]; [|done]. by intros [= <-].
    + by intros [= <-].
    + destruct (notify_one wake ws) as [ws'|] eqn:Hn; [|done].
      simpl. intros [= <-]. simpl.
      apply notify_one_Some in Hn as [(x & Hw & ->)%wake_up_Some|[-> _]];
        [by eapply Hins|done].
  - unfold step_waiter; simpl.
    destruct (ws !! i) as [[x pc1]|] eqn:Hi; [|done]. simpl.
    destruct pc1; simpl; try done.
    + destruct mx; [done|]. intros [= <-]. by eapply Hins.
    + destruct (objects wd !! this) as [[|top rest]|]; [| |done];
        simpl; intros [= <-]; by eapply Hins.
    + destruct (objects wd !! this) as [[|top rest]|]; try done. simpl.
      destruct x as [e0|].
      * destruct (move_out top (Local e0) (heap wd)) as [[[y|b] h]|];
          try done.
        intros [= <-]. by eapply Hins.
      * intros [= <-]. by eapply Hins.
    + intros [= <-]. by eapply Hins.
  - destruct (wake_up i ws) as [ws'|] eqn:Hw; [|done]. simpl. intros [= <-].
    apply wake_up_Some in Hw as (x & Hw & ->). by eapply Hins.
Qed.

Lemma pushed_cell_lookup y :
  (heap σ ++ [elem]) !! length (heap σ) = Some y → y = elem.
Proof. rewrite lookup_app_r, Nat.sub_diag by lia. simpl. congruence. Qed.

Lemma phase_ok_step a c c' :
  mutex_ok c → phase_ok this σ elem c → 1 ≤ length (waiters c) →
  step this a c = Some c' → phase_ok this σ elem c'.
Proof.
  destruct c as [wd mx pc ws]. intros Hm Hp Hlen. simpl in Hlen.
  destruct a as [wake|i|i]; simpl.
  - unfold step_pusher; simpl. revert Hp. unfold phase_ok at 1. simpl.
    destruct pc; simpl; try done.
    + intros (-> & Hh & Hobj & Ht & Hk). unfold make_shared.
      destruct (make_shared_throws (heap wd) elem) eqn:Hthrow;
        [rewrite Hh in Hthrow; congruence|].
      intros [= <-]. unfold phase_ok. simpl. by rewrite Hh.
    + intros Hp. destruct mx; [done|]. by intros [= <-].
    + intros (-> & Hh & Hobj & Ht & Hk).
      rewrite (stack_is_lookup _ _ Hobj). simpl. intros [= <-].
      unfold phase_ok. simpl. split_and!; [done| |done].
      by rewrite Hobj, insert_insert_eq.
    + intros Hp [= <-]. unfold phase_ok. simpl. by left.
    + intros Hp. destruct (notify_one wake ws) as [ws'|] eqn:Hn; [|done].
      simpl. intros [= <-].
      apply notify_one_Some in Hn as [Hw|[-> Hnone]].
      * pose proof (wake_up_Some _ _ _ Hw) as (x & Hi & ->).
        pose proof (tally_insert awake ws wake _ (x, W_lock) Hi) as Hins.
        pose proof (tally_insert took ws wake _ (x, W_lock) Hi) as Hins1.
        pose proof (tally_insert taking ws wake _ (x, W_lock) Hi) as Hins2.
        simpl in Hins, Hins1, Hins2. unfold phase_ok. simpl.
        destruct Hp as [(? & ? & ?)|(? & ? & ? & ?)]; [left|right];
          split_and!; try done; try lia.
        by apply Forall_insert.
      * unfold phase_ok. simpl.
        destruct Hp as [(? & ? & ?)|?]; [left|by right].
        split_and!; try done.
        pose proof (tally_split asleep took awake ws) as Hsplit.
        rewrite <- Hsplit in Hlen; [lia|].
        apply Forall_forall. by intros [x []].
  - unfold step_waiter; simpl.
    destruct (ws !! i) as [[x pc1]|] eqn:Hi; [|done]. simpl.
    destruct pc1; simpl; try done.
    + destruct mx; [done|]. intros [= <-].
      eapply (phase_ok_move wd None _ pc ws i x W_lock W_pred);
        simpl; try done; lia.
    + destruct (objects wd !! this) as [[|top rest]|] eqn:Hs; [| |done];
        simpl; intros [= <-].
      * by eapply phase_ok_sleep.
      * by eapply phase_ok_found.
    + destruct (objects wd !! this) as [[|top rest]|] eqn:Hs; try done. simpl.
      destruct x as [e0|].
      * destruct (move_out top (Local e0) (heap wd)) as [[[y|b] h]|] eqn:Hmove;
          try done.
        intros [= <-]. eapply phase_ok_take; try done.
        intros Hh ->. simpl.
        apply move_out_spec in Hmove as (t & y' & [= <-] & Hy & [= <-] & _).
        rewrite Hh in Hy. by apply pushed_cell_lookup.
      * intros [= <-]. unfold set_stack. eapply phase_ok_take; try done.
        intros Hh ->. simpl. rewrite Hh.
        by rewrite lookup_app_r, Nat.sub_diag by lia.
    + intros [= <-].
      eapply (phase_ok_move wd mx None pc ws i x (W_unlock r) (W_returned r));
        simpl; try done; lia.
  - destruct (wake_up i ws) as [ws'|] eqn:Hw; [|done]. simpl. intros [= <-].
    by eapply phase_ok_wake_up.
Qed.

Variable fs : list (option AdaptElem).
Hypothesis Hwaiters : 1 ≤ length fs.

Lemma invariant_init :
  invariant this σ elem fs (push_against_waiters σ elem fs).
Proof.
  unfold invariant, push_against_waiters, mutex_ok, phase_ok. simpl.
  rewrite !tally_fmap_asleep. simpl. split_and!; try done; try lia.
  - by rewrite insert_id.
  - rewrite <- list_fmap_compose. apply list_fmap_id.
Qed.

Lemma invariant_step a c c' :
  invariant this σ elem fs c → step this a c = Some c' →
  invariant this σ elem fs c'.
Proof.
  intros (Hm & Hp & Hfs) Hstep. split_and!.
  - by eapply mutex_ok_step.
  - eapply phase_ok_step; try done.
    by rewrite <- (length_fmap fst), Hfs.
  - by rewrite (forms_step _ _ _ Hstep).
Qed.

Lemma invariant_run tr : ∀ c c',
  invariant this σ elem fs c → run this tr c = Some c' →
  invariant this σ elem fs c'.
Proof.
  induction tr as [|a tr IH]; intros c c' Hinv; simpl.
  - by intros [= <-].
  - destruct (step this a c) as [c1|] eqn:Hstep; [|done]. simpl.
    apply IH. by eapply invariant_step.
Qed.

(** ** What the invariant gives *)

Lemma invariant_returned c :
  invariant this σ elem fs c →
  tally returned (waiters c) ≤ 1
  ∧ Forall (delivered (heap (world c)) elem) (waiters c).
Proof.
  intros (_ & Hp & _).
  assert (tally returned (waiters c) ≤ tally took (waiters c)) as Hle
    by (apply tally_le; intros []; simpl; lia).
  revert Hp. unfold phase_ok.
  destruct (pusher c); try done; intros; destruct_and?; destruct_or?;
    destruct_and?; split; try lia; try done; by apply delivered_took_zero.
Qed.

Lemma rank_zero_idle ws :
  tally wait_rank ws = 0 →
  tally awake ws = 0 ∧ tally took ws = tally returned ws
  ∧ tally asleep ws + tally returned ws = length ws.
Proof.
  unfold tally. induction ws as [|[x pc] ws IH]; simpl; [done|].
  destruct pc; simpl; try lia.
Qed.

Lemma invariant_quiescent c :
  invariant this σ elem fs c → quiescent c →
  tally returned (waiters c) = 1
  ∧ tally asleep (waiters c) = length fs - 1
  ∧ objects (world c) = objects σ.
Proof.
  intros (_ & Hp & Hfs) [Hret Hidle].
  apply tally_zero, rank_zero_idle in Hidle as (Hawake & Htook & Hsplit).
  rewrite <- Hfs, length_fmap.
  revert Hp. unfold phase_ok. rewrite Hret.
  intros [[_ ?]|(Hobj & ? & _)]; [lia|].
  split_and!; [lia|lia|]. rewrite Hobj. by apply insert_id.
Qed.

Lemma phase_ok_live c :
  phase_ok this σ elem c → is_Some (objects (world c) !! this).
Proof.
  unfold phase_ok. destruct (pusher c); try done; intros;
    destruct_and?; destruct_or?; destruct_and?;
    match goal with
    | Hobj : objects _ = <[this := _]> _ |- _ =>
        rewrite (stack_is_lookup _ _ Hobj); by eexists
    end.
Qed.

Lemma notify_one_first ws :
  ∃ ws', notify_one (default 0 (first_where waiting ws)) ws = Some ws'
         ∧ tally wait_rank ws' ≤ tally wait_rank ws + 4.
Proof.
  unfold first_where, notify_one.
  destruct (list_find (λ w, waiting w = true) ws) as [[k w]|] eqn:Hfind; simpl.
  - apply list_find_Some in Hfind as (Hk & Hw & _).
    destruct w as [x pc]. unfold waiting in Hw. simpl in Hw.
    destruct pc; try done. unfold wake_up. rewrite Hk.
    eexists. split; [done|].
    pose proof (tally_insert wait_rank ws k _ (x, W_lock) Hk) as Hins.
    simpl in Hins. lia.
  - apply list_find_None in Hfind.
    assert (existsb waiting ws = false) as ->.
    { apply not_true_is_false. intros (w & Hin & Hw)%existsb_exists.
      rewrite Forall_forall in Hfind. apply (Hfind w); [|done].
      by apply list_elem_of_In. }
    unfold wake_up. destruct (ws !! 0) as [[x pc]|] eqn:H0.
    + destruct pc; try (eexists; split; [done|lia]).
      rewrite Forall_lookup in Hfind. by destruct (Hfind 0 _ H0).
    + eexists. split; [done|lia].
Qed.

(** ** Progress *)

(** The thread the scheduler picks can run its statement, and the
    statements left to run get fewer; when the scheduler picks nobody
    the configuration is quiescent. *)
Lemma schedule_progress c :
  invariant this σ elem fs c →
  match schedule c with
  | Some a => ∃ c', step this a c = Some c' ∧ rank c' < rank c
  | None => quiescent c
  end.
Proof.
  destruct c as [wd mx pc ws]. intros (Hm & Hp & Hfs).
  pose proof (phase_ok_live _ Hp) as [s Hs]. simpl in Hs.
  revert Hm Hp. unfold schedule, mutex_ok, phase_ok, rank. simpl.
  destruct mx as [[|j]|].
  - intros [Hhold _] Hp. simpl. unfold step_pusher. simpl.
    destruct pc; simpl in Hhold; try lia; simpl.
    + rewrite Hs. simpl. eexists. split; [done|]. simpl. lia.
    + eexists. split; [done|]. simpl. lia.
  - intros (Hhold & Hone & [x pc1] & Hj & Hw) Hp. simpl in Hw.
    pose proof (tally_lookup_le taking ws j _ Hj) as Htaking.
    simpl in Htaking. simpl. unfold step_waiter. simpl. rewrite Hj. simpl.
    destruct pc1; simpl in Hw, Htaking; try lia; simpl.
    + rewrite Hs. simpl.
      destruct s as [|top rest]; (eexists; split; [done|]); simpl.
      * pose proof (tally_insert wait_rank ws j _ (x, W_wait) Hj) as Hins.
        simpl in Hins. lia.
      * pose proof (tally_insert wait_rank ws j _ (x, W_take) Hj) as Hins.
        simpl in Hins. lia.
    + assert (heap wd = heap σ ++ [elem]
              ∧ objects wd = <[this := [Some (length (heap σ))]]> (objects σ))
        as [Hh Hobj].
      { destruct pc; simpl in Hhold; try done; destruct_and?; destruct_or?;
          destruct_and?; try lia; done. }
      rewrite (stack_is_lookup _ _ Hobj). simpl.
      destruct x as [e0|].
      * simpl. rewrite Hh, lookup_app_r, Nat.sub_diag by lia. simpl.
        eexists. split; [done|]. simpl.
        pose proof (tally_insert wait_rank ws j _
                      (Some e0, W_unlock (Into elem)) Hj) as Hins.
        simpl in Hins. lia.
      * eexists. split; [done|]. simpl.
        pose proof (tally_insert wait_rank ws j _
                      (None, W_unlock (Handle (Some (length (heap σ))))) Hj)
          as Hins.
        simpl in Hins. lia.
    + eexists. split; [done|]. simpl.
      pose proof (tally_insert wait_rank ws j _ (x, W_returned r) Hj) as Hins.
      simpl in Hins. lia.
  - intros [Hhold Hnone] Hp.
    destruct pc; simpl in Hhold; try lia; try done; simpl;
      unfold step_pusher; simpl.
    + destruct Hp as (-> & Hh & _). unfold make_shared. rewrite Hh, Hwrap.
      eexists. split; [done|]. simpl. lia.
    + eexists. split; [done|]. simpl. lia.
    + destruct (notify_one_first ws) as (ws' & -> & Hle). simpl.
      eexists. split; [done|]. simpl. lia.
    + unfold first_where.
      destruct (list_find (λ w, wants_lock w = true) ws) as [[k w]|] eqn:Hfind;
        simpl.
      * apply list_find_Some in Hfind as (Hk & Hw & _).
        destruct w as [x pc1]. unfold wants_lock in Hw. simpl in Hw.
        destruct pc1; try done. unfold step_waiter. simpl. rewrite Hk. simpl.
        eexists. split; [done|]. simpl.
        pose proof (tally_insert wait_rank ws k _ (x, W_pred) Hk) as Hins.
        simpl in Hins. lia.
      * apply list_find_None in Hfind. split; [done|]. simpl.
        apply tally_zero in Hnone.
        apply Forall_forall. intros [x pc1] Hin.
        rewrite Forall_forall in Hfind, Hnone.
        specialize (Hfind _ Hin). specialize (Hnone _ Hin).
        unfold wants_lock in Hfind. simpl in *. by destruct pc1.
Qed.

Lemma settle_spec fuel : ∀ c,
  invariant this σ elem fs c → rank c ≤ fuel →
  run this (settle this fuel c).1 c = Some (settle this fuel c).2
  ∧ quiescent (settle this fuel c).2.
Proof.
  induction fuel as [|fuel IH]; intros c Hinv Hrank; simpl.
  - split; [done|]. pose proof (schedule_progress c Hinv) as Hsched.
    destruct (schedule c) as [a|]; [|done].
    destruct Hsched as (c' & _ & ?). lia.
  - pose proof (schedule_progress c Hinv) as Hsched.
    destruct (schedule c) as [a|]; [|done].
    destruct Hsched as (c' & Hstep & Hlt). rewrite Hstep.
    destruct (IH c') as [Hrun Hq]; [by eapply invariant_step|lia|].
    destruct (settle this fuel c') as [tr c'']. simpl in *.
    by rewrite Hstep.
Qed.

(** [push] waits for nothing but the mutex, and then for a waiter that
    is on its way to release it. *)
Lemma pusher_not_held_up c :
  invariant this σ elem fs c → pusher c ≠ P_returned →
  (∃ wake, is_Some (step this (Run_pusher wake) c))
  ∨ (∃ i, mutex c = Some (Waiter i) ∧ is_Some (step this (Run_waiter i) c)).
Proof.
  intros Hinv Hnot. pose proof (schedule_progress c Hinv) as Hsched.
  assert (push_rank (pusher c) ≠ 0) as Hrank.
  { destruct Hinv as (_ & Hp & _). revert Hp Hnot. unfold phase_ok.
    by destruct (pusher c). }
  revert Hsched. unfold schedule.
  destruct (mutex c) as [[|j]|] eqn:Hmx.
  - intros (c' & Hstep & _). left. by eexists 0, c'.
  - intros (c' & Hstep & _). right. exists j. split; [done|]. by exists c'.
  - destruct (pusher c); simpl in Hrank; try done;
      intros (c' & Hstep & _); left; by eexists _, c'.
Qed.

(** Run on its own from the start, [push] goes through its five
    statements and returns. *)
Lemma pusher_solo :
  ∃ c, run this (replicate 5 (Run_pusher 0)) (push_against_waiters σ elem fs)
       = Some c ∧ pusher c = P_returned.
Proof.
  destruct fs as [|f0 fs']; [simpl in Hwaiters; lia|].
  simpl. unfold step_pusher, make_shared. simpl. rewrite Hwrap. simpl.
  rewrite Hempty. simpl. by eexists.
Qed.
End Scenario.

(** C8: with the stack empty, the mutex free and [w >= 1] threads asleep
    in the wait of [waitAndPop] (either form), one [push] whose
    [make_shared] succeeds runs to its return on its own and in any
    interleaving is held up at most by a waiter inside its critical
    section; under every interleaving, spurious wake-ups included, at most
    one waiter has returned and whatever a waiter took is the pushed
    element; once [push] has returned and no waiter is on the move,
    exactly one waiter has returned and the other [w - 1] are asleep; and
    such a configuration is reached from wherever the threads are. *)
Theorem push_wakes_one_waiter this σ elem fs :
  objects σ !! this = Some [] →
  make_shared_throws (heap σ) elem = false →
  1 ≤ length fs →
  (∃ c, run this (replicate 5 (Run_pusher 0)) (push_against_waiters σ elem fs)
        = Some c ∧ pusher c = P_returned)
  ∧ ∀ tr c, run this tr (push_against_waiters σ elem fs) = Some c →
      tally returned (waiters c) ≤ 1
      ∧ Forall (delivered (heap (world c)) elem) (waiters c)
      ∧ (pusher c ≠ P_returned →
         (∃ wake, is_Some (step this (Run_pusher wake) c))
         ∨ (∃ i, mutex c = Some (Waiter i)
                 ∧ is_Some (step this (Run_waiter i) c)))
      ∧ (quiescent c →
         tally returned (waiters c) = 1
         ∧ tally asleep (waiters c) = length fs - 1
         ∧ objects (world c) = objects σ)
      ∧ ∃ tr' c', run this tr' c = Some c' ∧ quiescent c'.
Proof.
  intros Hempty Hwrap Hwaiters. split; [by apply pusher_solo|].
  intros tr c Hrun.
  assert (invariant this σ elem fs c) as Hinv.
  { eapply invariant_run; [done..| |exact Hrun]. by apply invariant_init. }
  assert (tally returned (waiters c) ≤ 1
          ∧ Forall (delivered (heap (world c)) elem) (waiters c)) as [Hle Hdel]
    by by eapply invariant_returned.
  split_and!; try done.
  - by eapply pusher_not_held_up.
  - by eapply invariant_quiescent.
  - assert (run this (settle this (rank c) c).1 c = Some (settle this (rank c) c).2
            ∧ quiescent (settle this (rank c) c).2) as [Hsettle Hq]
      by by eapply settle_spec.
    by eexists _, _.
Qed.

(** ** Mutual exclusion *)

Lemma mutex_ok_run this tr : ∀ c c',
  mutex_ok c → run this tr c = Some c' → mutex_ok c'.
Proof.
  induction tr as [|a tr IH]; intros c c' Hm; simpl.
  - by intros [= <-].
  - destruct (step this a c) as [c1|] eqn:Hstep; [|done]. simpl.
    apply IH. by eapply mutex_ok_step.
Qed.

(** X10: from a configuration in which the mutex is held by exactly the
    thread inside its critical section, if any, every interleaving keeps
    it so: never are two threads between their lock and their unlock, and
    the mutex is free exactly when no thread is. *)
Theorem mutual_exclusion this tr c c' :
  mutex_ok c →
  run this tr c = Some c' →
  push_holding (pusher c') + tally holding (waiters c') ≤ 1
  ∧ (mutex c' = None
     ↔ push_holding (pusher c') + tally holding (waiters c') = 0).
Proof.
  intros Hm Hrun. pose proof (mutex_ok_run this tr c c' Hm Hrun) as Hm'.
  revert Hm'. unfold mutex_ok. destruct (mutex c') as [[|j]|].
  - intros [? ?]. split; [lia|]. split; [done|lia].
  - intros (? & ? & _). split; [lia|]. split; [done|lia].
  - intros [? ?]. split; [lia|]. split; [lia|done].
Qed.

(** ** Waiting on an empty stack *)

Lemma no_push_step this failing σ a c c' :
  objects σ !! this = Some [] →
  no_push failing σ c → step this a c = Some c' → no_push failing σ c'.
Proof.
  intros Hempty. destruct c as [wd mx pc ws]. unfold no_push. simpl.
  intros (-> & Htook & Htaking & Hpc).
  assert (∀ i x pc1 pc2, ws !! i = Some (x, pc1) →
            took pc1 = took pc2 → taking pc1 = taking pc2 →
            tally took (<[i := (x, pc2)]> ws) = 0
            ∧ tally taking (<[i := (x, pc2)]> ws) = 0) as Hmove.
  { intros i x pc1 pc2 Hi H1 H2.
    pose proof (tally_insert took ws i _ (x, pc2) Hi) as Hins1.
    pose proof (tally_insert taking ws i _ (x, pc2) Hi) as Hins2.
    simpl in Hins1, Hins2. lia. }
  destruct a as [wake|i|i]; simpl.
  - unfold step_pusher; simpl. destruct pc; simpl in *; try done.
    destruct Hpc as [-> Hthrow]. unfold make_shared. rewrite Hthrow.
    by intros [= <-].
  - unfold step_waiter; simpl.
    destruct (ws !! i) as [[x pc1]|] eqn:Hi; [|done]. simpl.
    pose proof (tally_lookup_le took ws i _ Hi) as Hle1.
    pose proof (tally_lookup_le taking ws i _ Hi) as Hle2.
    destruct pc1; simpl in Hle1, Hle2; try lia; simpl; try done.
    + destruct mx; [done|]. intros [= <-]. simpl.
      destruct (Hmove i x W_lock W_pred Hi) as [? ?]; [done..|]. by split_and!.
    + rewrite Hempty. simpl. intros [= <-]. simpl.
      destruct (Hmove i x W_pred W_wait Hi) as [? ?]; [done..|]. by split_and!.
  - destruct (wake_up i ws) as [ws'|] eqn:Hw; [|done]. simpl. intros [= <-].
    apply wake_up_Some in Hw as (x & Hi & ->). simpl.
    destruct (Hmove i x W_wait W_lock Hi) as [? ?]; [done..|]. by split_and!.
Qed.

Lemma no_push_run this failing σ tr : ∀ c c',
  objects σ !! this = Some [] →
  no_push failing σ c → run this tr c = Some c' → no_push failing σ c'.
Proof.
  induction tr as [|a tr IH]; intros c c' Hempty Hq; simpl.
  - by intros [= <-].
  - destruct (step this a c) as [c1|] eqn:Hstep; [|done]. simpl.
    apply IH; [done|]. by eapply no_push_step.
Qed.

Lemma no_push_returned failing σ c :
  no_push failing σ c → tally returned (waiters c) = 0.
Proof.
  intros (_ & Htook & _).
  assert (tally returned (waiters c) ≤ tally took (waiters c)) as Hle
    by (apply tally_le; intros []; simpl; lia).
  lia.
Qed.

(** X11: while the stack is empty and [push] has returned, no
    interleaving lets a [waitAndPop] return, spurious wake-ups included:
    a woken waiter tests the predicate under the lock and goes back to
    sleep.  No waiter reaches the removal, none returns, and the world
    stays as it is. *)
Theorem waiters_wait_on_empty this tr c c' :
  objects (world c) !! this = Some [] →
  pusher c = P_returned →
  tally took (waiters c) = 0 →
  tally taking (waiters c) = 0 →
  run this tr c = Some c' →
  world c' = world c
  ∧ tally returned (waiters c') = 0
  ∧ tally taking (waiters c') = 0
  ∧ pusher c' = P_returned.
Proof.
  intros Hempty Hpc Htook Htaking Hrun.
  assert (no_push false (world c) c) as Hq
    by (unfold no_push; by rewrite Hpc).
  pose proof (no_push_run this false (world c) tr c c' Hempty Hq Hrun) as Hq'.
  pose proof (no_push_returned _ _ _ Hq') as Hret.
  destruct Hq' as (Hw & _ & Htaking' & Hpc').
  split_and!; try done.
  revert Hpc'. by destruct (pusher c'); simpl; intros; destruct_and?.
Qed.

(** X12: when [make_shared] throws, [push] throws [bad_alloc] at its
    first statement, before it has locked the mutex or notified anybody:
    with the stack empty and the waiters asleep, under every interleaving
    the world stays as it was, [push] never enters its critical section
    and never returns normally, and no waiter returns. *)
Theorem failed_push_wakes_nobody this σ elem fs tr c :
  objects σ !! this = Some [] →
  make_shared_throws (heap σ) elem = true →
  run this tr (push_against_waiters σ elem fs) = Some c →
  (∀ wake, ∃ c1, step this (Run_pusher wake) (push_against_waiters σ elem fs)
                 = Some c1 ∧ pusher c1 = P_threw bad_alloc ∧ world c1 = σ)
  ∧ world c = σ
  ∧ tally returned (waiters c) = 0
  ∧ push_holding (pusher c) = 0
  ∧ pusher c ≠ P_returned.
Proof.
  intros Hempty Hthrow Hrun. split.
  { intros wake. simpl. unfold step_pusher, make_shared. simpl.
    rewrite Hthrow. by eexists. }
  assert (no_push true σ (push_against_waiters σ elem fs)) as Hq.
  { unfold no_push, push_against_waiters. simpl.
    rewrite !tally_fmap_asleep. simpl. split_and!; try done; lia. }
  pose proof (no_push_run this true σ tr _ c Hempty Hq Hrun) as Hq'.
  pose proof (no_push_returned _ _ _ Hq') as Hret.
  destruct Hq' as (Hw & _ & _ & Hpc').
  split_and!; try done; revert Hpc'; destruct (pusher c); simpl;
    intros; destruct_and?; done.
Qed.
End ThreadProperties.
(** ** The two layers agree *)

Section Agreement.
Context {AdaptElem : Type} `{!Element AdaptElem}.

Lemma run_step this a tr (c c1 : Config AdaptElem) :
  step this a c = Some c1 → run this (a :: tr) c = run this tr c1.
Proof. intros Hstep. simpl. by rewrite Hstep. Qed.

(** X13: on a live stack, when [make_shared] succeeds, the five
    statements of [push] run from a free mutex all go through without
    interruption, whichever sleeper the notification picks; they end with
    [push] returned and the mutex free, and they leave the world that the
    call [push] as a whole leaves. *)
Theorem pusher_run_is_push this elem (σ : World AdaptElem) s ws wake :
  objects σ !! this = Some s →
  make_shared_throws (heap σ) elem = false →
  is_Some (notify_one wake ws) →
  ∃ c, run this (replicate 5 (Run_pusher wake))
         (mkConfig σ None (P_make_shared elem) ws) = Some c
       ∧ pusher c = P_returned
       ∧ mutex c = None
       ∧ push this elem σ = Returns () (world c).
Proof.
  intros Hs Hok [ws' Hws']. cbn [replicate].
  set (data := Some (length (heap σ))).
  set (σ1 := mkWorld (heap σ ++ [elem]) (objects σ)).
  set (σ2 := mkWorld (heap σ ++ [elem]) (<[this := data :: s]> (objects σ))).
  rewrite (run_step this _ _ _ (mkConfig σ1 None (P_lock data) ws)).
  2: { simpl. unfold step_pusher, make_shared. simpl. by rewrite Hok. }
  rewrite (run_step this _ _ _ (mkConfig σ1 (Some Pusher) (P_push data) ws))
    by done.
  rewrite (run_step this _ _ _ (mkConfig σ2 (Some Pusher) P_unlock ws)).
  2: { simpl. unfold step_pusher. simpl. by rewrite Hs. }
  rewrite (run_step this _ _ _ (mkConfig σ2 None P_notify_one ws)) by done.
  rewrite (run_step this _ _ _ (mkConfig σ2 None P_returned ws')).
  2: { simpl. unfold step_pusher. simpl. by rewrite Hws'. }
  eexists. split; [done|]. simpl. split_and!; try done.
  unfold push, make_shared. by rewrite Hok, Hs.
Qed.

(** X14: on a non-empty stack whose top handle is valid, a thread that
    enters [waitAndPop] with the mutex free does not sleep: its four
    statements all go through without interruption, they end with the
    thread returned and the mutex free, and what the thread returns and
    the world it leaves are those of the call as a whole, by handle and
    into the thread's own variable alike. *)
Theorem waiter_run_is_waitAndPop this (σ : World AdaptElem) pc x ws i top rest :
  objects σ !! this = Some (top :: rest) →
  valid (heap σ) top →
  ws !! i = Some (x, W_lock) →
  ∃ c r, run this (replicate 4 (Run_waiter i)) (mkConfig σ None pc ws) = Some c
    ∧ waiters c !! i = Some (x, W_returned r)
    ∧ mutex c = None
    ∧ pusher c = pc
    ∧ match x, r with
      | Some elem, Into y =>
          waitAndPop_ref this (Local elem) σ = Returns (Local y) (world c)
      | None, Handle p => waitAndPop this σ = Returns p (world c)
      | _, _ => False
      end.
Proof.
  intros Hs [y Hy] Hi.
  assert (i < length ws) as Hlt by by eapply lookup_lt_Some.
  cbn [replicate].
  rewrite (run_step this _ _ _
             (mkConfig σ (Some (Waiter i)) pc (<[i := (x, W_pred)]> ws))).
  2: { simpl. unfold step_waiter. simpl. by rewrite Hi. }
  rewrite (run_step this _ _ _
             (mkConfig σ (Some (Waiter i)) pc (<[i := (x, W_take)]> ws))).
  2: { simpl. unfold step_waiter. simpl.
       rewrite list_lookup_insert_eq by done. simpl. rewrite Hs. simpl.
       by rewrite list_insert_insert_eq. }
  destruct x as [elem|].
  - destruct (move_out_local top elem (heap σ) y Hy) as (t & -> & Hmove).
    set (σ' := mkWorld (<[t := moved_from elem y]> (heap σ))
                 (<[this := rest]> (objects σ))).
    rewrite (run_step this _ _ _
               (mkConfig σ' (Some (Waiter i)) pc
                  (<[i := (Some elem, W_unlock (Into y))]> ws))).
    2: { simpl. unfold step_waiter. cbn -[move_out].
         rewrite list_lookup_insert_eq by done. cbn -[move_out].
         rewrite Hs. cbn -[move_out].
         rewrite Hmove. by rewrite list_insert_insert_eq. }
    rewrite (run_step this _ _ _
               (mkConfig σ' None pc
                  (<[i := (Some elem, W_returned (Into y))]> ws))).
    2: { simpl. unfold step_waiter. simpl.
         rewrite list_lookup_insert_eq by done. simpl.
         by rewrite list_insert_insert_eq. }
    eexists _, (Into y). split; [done|]. simpl.
    rewrite list_lookup_insert_eq by done. split_and!; try done.
    unfold waitAndPop_ref. by rewrite Hs, Hmove.
  - rewrite (run_step this _ _ _
               (mkConfig (set_stack this rest σ) (Some (Waiter i)) pc
                  (<[i := (None, W_unlock (Handle top))]> ws))).
    2: { simpl. unfold step_waiter. simpl.
         rewrite list_lookup_insert_eq by done. simpl. rewrite Hs. simpl.
         by rewrite list_insert_insert_eq. }
    rewrite (run_step this _ _ _
               (mkConfig (set_stack this rest σ) None pc
                  (<[i := (None, W_returned (Handle top))]> ws))).
    2: { simpl. unfold step_waiter. simpl.
         rewrite list_lookup_insert_eq by done. simpl.
         by rewrite list_insert_insert_eq. }
    eexists _, (Handle top). split; [done|]. simpl.
    rewrite list_lookup_insert_eq by done. split_and!; try done.
    unfold waitAndPop. by rewrite Hs.
Qed.
End Agreement.

(** * Worked instances *)

Section Instances.
Local Existing Instance string_element.

Lemma example_world_reachable : reachable example_world.
Proof.
  apply (reachable_exec_all example_calls init); [constructor|].
  vm_compute. reflexivity.
Qed.


Lemma pop_empty_throws_witness :
  objects example_world !! 1 = Some []
  ∧ pop 1 example_world = Throws (runtime_error empty_message) example_world
  ∧ pop_ref 1 (Local "u") example_world
    = Throws (runtime_error empty_message) example_world.
Proof.
  split; [reflexivity|].
  destruct (pop_empty_throws 1 (Local "u") example_world) as (H1 & H2 & _);
    [reflexivity|]. by split.
Defined.

Lemma tryPop_empty_no_element_witness :
  objects example_world !! 1 = Some []
  ∧ tryPop_ref 1 (Local "u") example_world
    = Returns (false, Local "u") example_world
  ∧ tryPop 1 example_world = Returns None example_world.
Proof.
  split; [reflexivity|].
  destruct (tryPop_empty_no_element 1 (Local "u") example_world)
    as (H1 & H2 & _);
    [reflexivity|]. by split.
Defined.

Lemma push_failure_atomic_witness :
  make_shared_throws (heap full_world) "e" = true
  ∧ push 0 "e" full_world = Throws bad_alloc full_world.
Proof.
  split; [reflexivity|].
  apply (push_failure_atomic 0 "e" full_world). reflexivity.
Defined.

Lemma tryPop_nonempty_refines_witness :
  objects example_world !! 0 = Some [Some 1; Some 0]
  ∧ tryPop 0 example_world = waitAndPop 0 example_world
  ∧ tryPop_ref 0 (Local "u") example_world
    = outcome_map (pair true) (pop_ref 0 (Local "u") example_world)
  ∧ (∃ (elem' : reference string) σ',
       tryPop_ref 0 (Local "u") example_world = Returns (true, elem') σ'
       ∧ read (heap σ') elem' = Some "b"
       ∧ objects σ' !! 0 = Some [Some 0])
  ∧ (∃ σ', tryPop_ref 0 (Pointee 1) example_world
           = Returns (true, Pointee 1) σ'
           ∧ read (heap σ') (Pointee 1) = Some (self_moved "b")
           ∧ objects σ' !! 0 = Some [Some 0]).
Proof.
  split; [reflexivity|]. split_and!.
  - by destruct (tryPop_nonempty_refines 0 (Local "u") (Some 1) [Some 0]
                   example_world) as (_ & H & _); [reflexivity|].
  - by destruct (tryPop_nonempty_refines 0 (Local "u") (Some 1) [Some 0]
                   example_world) as (_ & _ & _ & _ & H & _); [reflexivity|].
  - destruct (tryPop_nonempty_refines 0 (Local "u") (Some 1) [Some 0]
                example_world) as (_ & _ & _ & _ & _ & H & _); [reflexivity|].
    apply (H "b"); [reflexivity|by eexists|intros []].
  - destruct (tryPop_nonempty_refines 0 (Pointee 1) (Some 1) [Some 0]
                example_world) as (_ & _ & _ & _ & _ & _ & H); [reflexivity|].
    by apply (H 1 "b").
Defined.

(** C6 as stated does not hold of every output argument.  Stack [0] holds
    "b" over "a"; a copy of it hands out, by [pop()], a handle to the cell
    of "b", which stack [0] still holds as its top.  [tryPop(elem)] on
    stack [0] with [elem] bound to that cell moves the element to itself:
    the call returns [true] and takes the handle off, and [elem] then
    denotes the empty string, not the element "b" that was on top. *)
Lemma tryPop_ref_into_top_pointee :
  copy_ctor 2 0 example_world
  = Returns () (mkWorld ["a"; "b"]
                  {[ 0 := [Some 1; Some 0]; 1 := []; 2 := [Some 1; Some 0] ]})
  ∧ pop 2 (mkWorld ["a"; "b"]
             {[ 0 := [Some 1; Some 0]; 1 := []; 2 := [Some 1; Some 0] ]})
    = Returns (Some 1)
        (mkWorld ["a"; "b"]
           {[ 0 := [Some 1; Some 0]; 1 := []; 2 := [Some 0] ]})
  ∧ deref ["a"; "b"] (Some 1) = Some "b"
  ∧ tryPop_ref 0 (Pointee 1)
      (mkWorld ["a"; "b"] {[ 0 := [Some 1; Some 0]; 1 := []; 2 := [Some 0] ]})
    = Returns (true, Pointee 1)
        (mkWorld ["a"; EmptyString]
           {[ 0 := [Some 0]; 1 := []; 2 := [Some 0] ]})
  ∧ read ["a"; EmptyString] (Pointee 1) = Some EmptyString
  ∧ read ["a"; EmptyString] (Pointee 1) ≠ deref ["a"; "b"] (Some 1).
Proof.
  split_and!; [vm_compute; reflexivity..|reflexivity|reflexivity|
               vm_compute; reflexivity|reflexivity|discriminate].
Qed.

Lemma copy_duplicates_witness :
  objects example_world !! 0 = Some [Some 1; Some 0]
  ∧ objects example_world !! 2 = None
  ∧ 1 ≠ 0
  ∧ objects example_world !! 1 = Some []
  ∧ (∃ σ', copy_ctor 2 0 example_world = Returns () σ'
           ∧ objects σ' !! 2 = Some [Some 1; Some 0])
  ∧ (∃ σ', copy_assign 1 0 example_world = Returns () σ'
           ∧ objects σ' !! 1 = Some [Some 1; Some 0]).
Proof.
  split_and!; [reflexivity|reflexivity|lia|reflexivity| |].
  - destruct (copy_duplicates 0 [Some 1; Some 0] example_world) as [Hctor _];
      [reflexivity|].
    destruct (Hctor 2) as (σ' & H1 & H2 & _); [reflexivity|]. by exists σ'.
  - destruct (copy_duplicates 0 [Some 1; Some 0] example_world) as [_ Hassign];
      [reflexivity|].
    destruct (Hassign 1 []) as (σ' & H1 & H2 & _); [lia|reflexivity|].
    by exists σ'.
Defined.

Lemma non_null_slots_witness :
  reachable example_world
  ∧ non_null example_world
  ∧ ∃ p σ', tryPop 0 example_world = Returns p σ'
            ∧ (p = None ↔ [Some 1; Some 0] = []).
Proof.
  split; [apply example_world_reachable|].
  destruct (non_null_slots example_world example_world_reachable)
    as (_ & Hnn & _ & _ & _ & Htry).
  split; [done|]. by apply Htry.
Defined.



Lemma push_wakes_one_waiter_witness :
  objects waiting_world !! 0 = Some []
  ∧ make_shared_throws (heap waiting_world) "e" = false
  ∧ 1 ≤ length waiting_forms
  ∧ run 0 example_trace (push_against_waiters waiting_world "e" waiting_forms)
    = Some example_settled
  ∧ quiescent example_settled
  ∧ tally returned (waiters example_settled) = 1
  ∧ tally asleep (waiters example_settled) = length waiting_forms - 1.
Proof.
  assert (quiescent example_settled) as Hq
    by (split; [reflexivity|repeat constructor]).
  split_and!; [reflexivity|reflexivity|simpl; lia|vm_compute; reflexivity|done| |].
  - destruct (push_wakes_one_waiter 0 waiting_world "e" waiting_forms)
      as [_ Hall]; [reflexivity|reflexivity|simpl; lia|].
    destruct (Hall example_trace example_settled) as (_ & _ & _ & Hsettled & _);
      [vm_compute; reflexivity|].
    by destruct (Hsettled Hq) as (? & _).
  - destruct (push_wakes_one_waiter 0 waiting_world "e" waiting_forms)
      as [_ Hall]; [reflexivity|reflexivity|simpl; lia|].
    destruct (Hall example_trace example_settled) as (_ & _ & _ & Hsettled & _);
      [vm_compute; reflexivity|].
    by destruct (Hsettled Hq) as (_ & ? & _).
Defined.

Lemma example_world_wf : wf example_world.
Proof. apply wf_reachable, example_world_reachable. Qed.

Lemma spare_world_wf : wf spare_world.
Proof.
  apply wf_reachable, (reachable_exec_all spare_calls init); [constructor|].
  vm_compute. reflexivity.
Qed.

Lemma drain_delivers_every_element_witness :
  wf spare_world
  ∧ objects spare_world !! 0 = Some [Some 1; Some 0]
  ∧ length [Ex_pop_ref (Pointee 2); Ex_tryPop_ref (Local "u")]
    = length [Some 1; Some 0]
  ∧ Forall (apart (heap spare_world) [Some 1; Some 0])
      [Ex_pop_ref (Pointee 2); Ex_tryPop_ref (Local "u")]
  ∧ ∃ xs σ',
      extract_all [Ex_pop_ref (Pointee 2); Ex_tryPop_ref (Local "u")] 0
        spare_world = Some (xs, σ')
      ∧ Some <$> xs = elements (heap spare_world) [Some 1; Some 0]
      ∧ objects σ' !! 0 = Some []
      ∧ tryPop 0 σ' = Returns None σ'
      ∧ pop 0 σ' = Throws (runtime_error empty_message) σ'.
Proof.
  assert (Forall (apart (heap spare_world) [Some 1; Some 0])
            [Ex_pop_ref (Pointee 2); Ex_tryPop_ref (Local "u")]) as Hap.
  { constructor; [|constructor; [|constructor]].
    - intros out [= <-]. split; [by eexists|]. simpl.
      rewrite !elem_of_cons, elem_of_nil. by intros [[=]|[[=]|[]]].
    - intros out [= <-]. split; [by eexists|]. intros []. }
  split_and!; [apply spare_world_wf|reflexivity|reflexivity|done|].
  apply (drain_delivers_every_element 0 [Some 1; Some 0]);
    [apply spare_world_wf|reflexivity|reflexivity|done].
Defined.

Lemma reachable_calls_defined_witness :
  reachable example_world
  ∧ objects example_world !! 0 = Some [Some 1; Some 0]
  ∧ pop_ref 0 (Local "u") example_world ≠ Undefined
  ∧ tryPop_ref 0 (Pointee 1) example_world ≠ Undefined.
Proof.
  split_and!; [apply example_world_reachable|reflexivity| |].
  - destruct (reachable_calls_defined 0 "u" [Some 1; Some 0] example_world)
      as (_ & _ & _ & _ & _ & _ & H & _);
      [apply example_world_reachable|reflexivity|].
    exact H.
  - destruct (reachable_calls_defined 0 "u" [Some 1; Some 0] example_world)
      as (_ & _ & _ & _ & _ & _ & _ & Hrefs);
      [apply example_world_reachable|reflexivity|].
    destruct (Hrefs (Pointee 1)) as (_ & H & _); [by eexists|]. exact H.
Defined.

Lemma push_then_pop_witness :
  objects example_world !! 1 = Some []
  ∧ make_shared_throws (heap example_world) "e" = false
  ∧ ∃ σ' σ'', push 1 "e" example_world = Returns () σ'
              ∧ pop 1 σ' = Returns (Some 2) σ''
              ∧ objects σ'' = objects example_world.
Proof.
  split_and!; [reflexivity|reflexivity|].
  destruct (push_then_pop 1 "e" [] example_world)
    as (σ' & σ'' & H1 & _ & _ & _ & _ & _ & _ & H2 & H3 & _);
    [reflexivity|reflexivity|].
  by exists σ', σ''.
Defined.

Lemma move_ctor_relocates_witness :
  objects example_world !! 0 = Some [Some 1; Some 0]
  ∧ objects example_world !! 2 = None
  ∧ ∃ σ', move_ctor 2 0 example_world = Returns () σ'
          ∧ objects σ' !! 2 = Some [Some 1; Some 0]
          ∧ objects σ' !! 0 = Some [].
Proof.
  split_and!; [reflexivity|reflexivity|].
  destruct (move_ctor_relocates 2 0 [Some 1; Some 0] example_world)
    as (σ' & H1 & H2 & H3 & _); [reflexivity|reflexivity|].
  by exists σ'.
Defined.

Lemma move_assign_relocates_witness :
  1 ≠ 0
  ∧ objects example_world !! 1 = Some []
  ∧ objects example_world !! 0 = Some [Some 1; Some 0]
  ∧ ∃ σ', move_assign 1 0 example_world = Returns () σ'
          ∧ objects σ' !! 1 = Some [Some 1; Some 0]
          ∧ objects σ' !! 0 = Some [].
Proof.
  split_and!; [lia|reflexivity|reflexivity|].
  destruct (move_assign_relocates 1 0 [] [Some 1; Some 0] example_world)
    as (σ' & H1 & H2 & H3 & _); [lia|reflexivity|reflexivity|].
  by exists σ'.
Defined.

Lemma swap_exchanges_witness :
  0 ≠ 1
  ∧ objects example_world !! 0 = Some [Some 1; Some 0]
  ∧ objects example_world !! 1 = Some []
  ∧ ∃ σ', swap 0 1 example_world = Returns () σ'
          ∧ objects σ' !! 0 = Some []
          ∧ objects σ' !! 1 = Some [Some 1; Some 0]
          ∧ swap 0 1 σ' = Returns () example_world.
Proof.
  split_and!; [lia|reflexivity|reflexivity|].
  destruct (swap_exchanges 0 1 [Some 1; Some 0] [] example_world)
    as (σ' & H1 & H2 & H3 & _ & _ & _ & _ & H4); [lia|reflexivity|reflexivity|].
  by exists σ'.
Defined.

Lemma copy_shares_pointees_witness :
  objects example_world !! 0 = Some [Some 1; Some 0]
  ∧ objects example_world !! 2 = None
  ∧ heap example_world !! 1 = Some "b"
  ∧ read (heap example_world) (Pointee 0) = Some "a"
  ∧ @Pointee string 0 ≠ Pointee 1
  ∧ ∃ σ1, copy_ctor 2 0 example_world = Returns () σ1
      ∧ (∃ (out' : reference string) σ2 σ3,
           pop_ref 2 (Pointee 0) σ1 = Returns out' σ2
           ∧ read (heap σ2) out' = Some "b"
           ∧ pop_ref 0 (Local "v") σ2
             = Returns (Local (moved_from "a" "b")) σ3)
      ∧ (∃ σ2 σ3, pop_ref 2 (Pointee 1) σ1 = Returns (Pointee 1) σ2
           ∧ pop_ref 0 (Local "v") σ2
             = Returns (Local (self_moved "b")) σ3).
Proof.
  split_and!; [reflexivity|reflexivity|reflexivity|reflexivity|done|].
  destruct (copy_shares_pointees 2 0 (Pointee 0) "v" 1 [Some 0] "b" "a"
              example_world)
    as (σ1 & H1 & (out' & σ2 & σ3 & H2 & H3 & _ & _ & H4)
        & (τ2 & τ3 & H5 & _ & _ & H6) & _);
    [reflexivity|reflexivity|reflexivity|reflexivity|done|].
  exists σ1. split_and!; [done| |].
  - by exists out', σ2, σ3.
  - by exists τ2, τ3.
Defined.

Lemma copy_is_independent_witness :
  wf example_world
  ∧ objects example_world !! 0 = Some [Some 1; Some 0]
  ∧ objects example_world !! 2 = None
  ∧ make_shared_throws (heap example_world) "e" = false
  ∧ ∃ σ1 σ2, copy_ctor 2 0 example_world = Returns () σ1
      ∧ push 2 "e" σ1 = Returns () σ2
      ∧ objects σ2 !! 0 = Some [Some 1; Some 0]
      ∧ elements (heap σ2) [Some 1; Some 0]
        = elements (heap example_world) [Some 1; Some 0].
Proof.
  split_and!; [apply example_world_wf|reflexivity|reflexivity|reflexivity|].
  destruct (copy_is_independent 2 0 "e" [Some 1; Some 0] example_world)
    as (σ1 & H1 & (σ2 & H2 & H3 & H4) & _);
    [apply example_world_wf|reflexivity|reflexivity|reflexivity|].
  by exists σ1, σ2.
Defined.

Lemma fresh_stack_is_empty_witness :
  objects example_world !! 2 = None
  ∧ ∃ σ', default_ctor 2 example_world = Returns () σ'
          ∧ size 2 σ' = Some 0
          ∧ dtor 2 σ' = Returns () example_world.
Proof.
  split; [reflexivity|].
  destruct (fresh_stack_is_empty 2 example_world)
    as (σ' & H1 & H2 & _ & _ & _ & _ & H3); [reflexivity|].
  by exists σ'.
Defined.

Lemma mutual_exclusion_witness :
  mutex_ok (push_against_waiters waiting_world "e" waiting_forms)
  ∧ run 0 example_trace (push_against_waiters waiting_world "e" waiting_forms)
    = Some example_settled
  ∧ push_holding (pusher example_settled)
    + tally holding (waiters example_settled) ≤ 1.
Proof.
  assert (mutex_ok (push_against_waiters waiting_world "e" waiting_forms))
    as Hm by (split; reflexivity).
  split_and!; [done|vm_compute; reflexivity|].
  by destruct (mutual_exclusion 0 example_trace _ example_settled Hm);
    [vm_compute; reflexivity|].
Defined.

Lemma waiters_wait_on_empty_witness :
  objects (world idle_config) !! 0 = Some []
  ∧ pusher idle_config = P_returned
  ∧ tally took (waiters idle_config) = 0
  ∧ tally taking (waiters idle_config) = 0
  ∧ run 0 idle_trace idle_config = Some idle_settled
  ∧ tally returned (waiters idle_settled) = 0.
Proof.
  split_and!;
    [reflexivity|reflexivity|reflexivity|reflexivity|vm_compute; reflexivity|].
  by destruct (waiters_wait_on_empty 0 idle_trace idle_config idle_settled)
    as (_ & H & _);
    [reflexivity|reflexivity|reflexivity|reflexivity|vm_compute; reflexivity|].
Defined.

Lemma failed_push_wakes_nobody_witness :
  objects full_empty_world !! 0 = Some []
  ∧ make_shared_throws (heap full_empty_world) "e" = true
  ∧ run 0 failed_trace (push_against_waiters full_empty_world "e" waiting_forms)
    = Some failed_settled
  ∧ world failed_settled = full_empty_world
  ∧ tally returned (waiters failed_settled) = 0.
Proof.
  split_and!; [reflexivity|reflexivity|vm_compute; reflexivity| |].
  - by destruct (failed_push_wakes_nobody 0 full_empty_world "e" waiting_forms
                failed_trace failed_settled) as (_ & H & _);
      [reflexivity|reflexivity|vm_compute; reflexivity|].
  - by destruct (failed_push_wakes_nobody 0 full_empty_world "e" waiting_forms
                failed_trace failed_settled) as (_ & _ & H & _);
      [reflexivity|reflexivity|vm_compute; reflexivity|].
Defined.

Lemma pusher_run_is_push_witness :
  objects waiting_world !! 0 = Some []
  ∧ make_shared_throws (heap waiting_world) "e" = false
  ∧ is_Some (notify_one 1 [(Some "u", W_wait); (None, W_wait)])
  ∧ ∃ c, run 0 (replicate 5 (Run_pusher 1))
           (mkConfig waiting_world None (P_make_shared "e")
              [(Some "u", W_wait); (None, W_wait)]) = Some c
         ∧ pusher c = P_returned
         ∧ mutex c = None
         ∧ push 0 "e" waiting_world = Returns () (world c).
Proof.
  assert (is_Some (notify_one 1 [(Some "u", @W_wait string); (None, W_wait)]))
    as Hwake by (eexists; reflexivity).
  split_and!; [reflexivity|reflexivity|done|].
  apply (pusher_run_is_push 0 "e" waiting_world []
           [(Some "u", W_wait); (None, W_wait)] 1);
    [reflexivity|reflexivity|done].
Defined.

Lemma waiter_run_is_waitAndPop_witness :
  objects waiting_world !! 1 = Some [Some 0]
  ∧ valid (heap waiting_world) (Some 0)
  ∧ [(Some "u", W_lock)] !! 0 = Some (Some "u", @W_lock string)
  ∧ ∃ c r, run 1 (replicate 4 (Run_waiter 0))
             (mkConfig waiting_world None P_returned [(Some "u", W_lock)])
           = Some c
           ∧ waiters c !! 0 = Some (Some "u", W_returned r)
           ∧ mutex c = None
           ∧ pusher c = P_returned
           ∧ match r with
             | Into y =>
                 waitAndPop_ref 1 (Local "u") waiting_world
                 = Returns (Local y) (world c)
             | Handle _ => False
             end.
Proof.
  assert (valid (heap waiting_world) (Some 0)) as Hvalid
    by (eexists; reflexivity).
  split_and!; [reflexivity|done|reflexivity|].
  apply (waiter_run_is_waitAndPop 1 waiting_world P_returned (Some "u")
           [(Some "u", W_lock)] 0 (Some 0) []);
    [reflexivity|done|reflexivity].
Defined.

Lemma stored_handles_alive_distinct_witness :
  reachable example_world
  ∧ objects example_world !! 0 = Some [Some 1; Some 0]
  ∧ NoDup [Some 1; Some 0]
  ∧ ∃ xs, elements (heap example_world) [Some 1; Some 0] = Some <$> xs.
Proof.
  split_and!; [apply example_world_reachable|reflexivity| |].
  - by destruct (stored_handles_alive_distinct 0 [Some 1; Some 0] example_world)
      as [H _]; [apply example_world_reachable|reflexivity|].
  - by destruct (stored_handles_alive_distinct 0 [Some 1; Some 0] example_world)
      as [_ H]; [apply example_world_reachable|reflexivity|].
Defined.
End Instances.
